(** * kustomizily: splitting a manifest stream into a kustomize tree

    A shallow embedding of the Go package [kustomizily]:
    - the document scanner ([newScanner], [splitYAMLDocument]),
    - the stream processor ([Builder.Process], [getTargetDir] and the
      ConfigMap / Secret / generic handlers),
    - the filename resolution ([selectUniqueFilenameFuncForK8sObjects],
      [selectUniqueFilenameFuncForFiles], [longestCommonPrefix], ...),
    - the emitter ([kustomizationBuilder.Build], [Builder.Build]).

    Go strings and byte slices are byte sequences, modelled as [list ascii].
    Go maps are [gmap]s; a [range] over a map asks the runtime for an
    iteration order.  Go [int]s are [Z]. *)

From Stdlib Require Import Ascii String ZArith Lia.
From stdpp Require Import base option list gmap sets strings sorting.

Set Default Proof Using "Type*".
Local Open Scope Z_scope.

(** ** Byte strings *)

Abbreviation str := (list ascii).

(** A literal ["abc"] stands for its list of bytes. *)
Coercion list_ascii_of_string : string >-> list.

Definition LF : ascii := "010"%char.
Definition len (s : str) : Z := Z.of_nat (length s).

(** [s[i:]] and [s[:i]] for an index that is in range. *)
Definition sliceFrom (s : str) (i : Z) : str := drop (Z.to_nat i) s.
Definition sliceTo (s : str) (i : Z) : str := take (Z.to_nat i) s.

(** [strings.HasPrefix] / [bytes.HasPrefix]. *)
Fixpoint HasPrefix (s p : str) {struct p} : bool :=
  match p, s with
  | [], _ => true
  | c :: p', d :: s' => bool_decide (c = d) && HasPrefix s' p'
  | _ :: _, [] => false
  end.

(** [bytes.Index] / [strings.Index]: index of the first instance of [sep]
    in [s], or -1. *)
Fixpoint Index (s sep : str) : Z :=
  if HasPrefix s sep then 0
  else match s with
       | [] => -1
       | _ :: s' => let r := Index s' sep in if r <? 0 then -1 else r + 1
       end.

(** [bytes.IndexByte]. *)
Fixpoint IndexByte (s : str) (c : ascii) : Z :=
  match s with
  | [] => -1
  | d :: s' =>
      if bool_decide (d = c) then 0
      else let r := IndexByte s' c in if r <? 0 then -1 else r + 1
  end.

(** ** The document scanner (scanner file) *)

Module Scanner.

Definition yamlSeparator : str := LF :: "---".

(** [splitYAMLDocument] is a [bufio.SplitFunc]; it returns
    [(advance, token, err)].  [err] is [nil] on every path, so the model
    returns the first two components; a [nil] token is [None]. *)
Definition splitYAMLDocument (data : str) (atEOF : bool) : Z * option str :=
  if atEOF && (len data =? 0) then (0, None)
  else
    let sep := len yamlSeparator in
    let i := Index data yamlSeparator in
    if 0 <=? i then
      (* We have a potential document terminator *)
      let i := i + sep in
      let after := sliceFrom data i in
      if len after =? 0 then
        (* we can't read any more characters *)
        if atEOF then (len data, Some (sliceTo data (len data - sep)))
        else (0, None)
      else
        let j := IndexByte after LF in
        if 0 <=? j then (i + j + 1, Some (sliceTo data (i - sep)))
        else (0, None)
    else if atEOF then (len data, Some data) (* final, non-terminated line *)
    else (0, None) (* request more data *).

(** [newScanner]: a [bufio.Scanner] with a token limit of 5M. *)
Definition maxTokenSize : Z := 5 * 1024 * 1024.

(** One [Scan] on the unread rest of the stream.  While the unread rest
    fills the whole buffer the split function sees the first
    [maxTokenSize] bytes and is not at EOF (no token there is
    [ErrTooLong], and [Scan] answers false); a shorter rest is read up to
    its end and split at EOF. *)
Definition scanStep (rest : str) : Z * option str :=
  if len rest <? maxTokenSize then splitYAMLDocument rest true
  else splitYAMLDocument (sliceTo rest maxTokenSize) false.

(** The tokens handed out by [for scanner.Scan() { scanner.Bytes() }]. *)
Fixpoint scanLoop (fuel : nat) (rest : str) : list str :=
  match fuel with
  | O => []
  | S fuel' =>
      match scanStep rest with
      | (advance, Some token) => token :: scanLoop fuel' (sliceFrom rest advance)
      | (_, None) => []
      end
  end.

Definition scanTokens (stream : str) : list str :=
  scanLoop (S (length stream)) stream.

End Scanner.

(** ** More of the [strings] package, byte by byte *)

Definition byteAt (s : str) (i : nat) : ascii := nth i s "000"%char.

(** [strings.Contains]. *)
Definition Contains (s substr : str) : bool := 0 <=? Index s substr.

(** [strings.HasSuffix] and [strings.TrimSuffix]. *)
Definition HasSuffix (s suffix : str) : bool :=
  HasPrefix (reverse s) (reverse suffix).

Definition TrimSuffix (s suffix : str) : str :=
  if HasSuffix s suffix then take (length s - length suffix) s else s.

(** [strings.ReplaceAll] for a pattern and a replacement of one byte each,
    which is what both call sites pass (":" by "_" and "/" by "_"). *)
Definition ReplaceAll (s : str) (old new : ascii) : str :=
  (λ c, if bool_decide (c = old) then new else c) <$> s.

(** [strings.LastIndexAny] for a set [chars] of ASCII bytes: the index of
    the last byte of [s] that is in [chars], or -1. *)
Fixpoint LastIndexAny (s chars : str) : Z :=
  match s with
  | [] => -1
  | c :: s' =>
      let r := LastIndexAny s' chars in
      if 0 <=? r then r + 1
      else if bool_decide (c ∈ chars) then 0 else -1
  end.

(** [sort.Strings]: ascending, bytes compared as unsigned numbers. *)
Fixpoint strLeb (a b : str) : bool :=
  match a, b with
  | [], _ => true
  | _ :: _, [] => false
  | c :: a', d :: b' =>
      if (N_of_ascii c <? N_of_ascii d)%N then true
      else if (N_of_ascii c =? N_of_ascii d)%N then strLeb a' b'
      else false
  end.

Definition sortStrings (l : list str) : list str :=
  merge_sort (λ a b, Is_true (strLeb a b)) l.

(** ** Data model (builder file) *)

Inductive error : Type :=
  | YAMLError (msg : str)          (* from yaml.Unmarshal *)
  | CorruptInputError (msg : str)  (* from base64 DecodeString *)
  | Errorf (msg : str)             (* fmt.Errorf *)
  | SinkError (msg : str).         (* from the writeFile callback *)

Inductive result (A : Type) : Type :=
  | Ok (a : A)
  | Err (e : error).
Arguments Ok {A} a.
Arguments Err {A} e.

Record metadata := {
  Namespace : str;
  Name : str;
  Labels : gmap str str;
  Annotations : gmap str str;
}.

Record specNames := { Plural : str }.

Record spec := {
  Group : str;          (* For CustomResourceDefinition *)
  Names : specNames;
}.

Record k8sObject := {
  Kind : str;
  APIVersion : str;
  Metadata : metadata;
  Spec : spec;
  (* ConfigMap/Secret fields *)
  Data : gmap str str;
  BinaryData : gmap str str;
  StringData : gmap str str;
  Immutable : bool;
  Type_ : str;
  Raw : str;
}.

(** The zero value [k8sObject{}]. *)
Definition k8sObject_zero : k8sObject :=
  {| Kind := []; APIVersion := [];
     Metadata := {| Namespace := []; Name := []; Labels := ∅; Annotations := ∅ |};
     Spec := {| Group := []; Names := {| Plural := [] |} |};
     Data := ∅; BinaryData := ∅; StringData := ∅;
     Immutable := false; Type_ := []; Raw := [] |}.

Definition setRaw (obj : k8sObject) (raw : str) : k8sObject :=
  {| Kind := Kind obj; APIVersion := APIVersion obj; Metadata := Metadata obj;
     Spec := Spec obj; Data := Data obj; BinaryData := BinaryData obj;
     StringData := StringData obj; Immutable := Immutable obj;
     Type_ := Type_ obj; Raw := raw |}.

(** [m[k]] on a Go map: the zero value when the key is absent. *)
Definition mapIndex (m : gmap str str) (k : str) : str := default [] (m !! k).

Record filesObject := {
  fo_k8sObject : k8sObject;
  files : gmap str str;
}.

Record kustomizationBuilder := {
  k8sObjects : list k8sObject;
  configMapObjects : list filesObject;
  secretObjects : list filesObject;
  resources : list str;
}.

Record Builder := { dirs : gmap str kustomizationBuilder }.

(** ** What the program takes from outside

    Library functions whose definition is not part of the repository. *)
Class GoLib := {
  ToLower : str → str;                    (* strings.ToLower *)
  TrimSpace : str → str;                  (* bytes.TrimSpace *)
  Quote : str → str;                      (* the %q verb *)
  yamlUnmarshal : str → result k8sObject; (* yaml.Unmarshal into a k8sObject *)
  DecodeString : str → result str;        (* base64.StdEncoding.DecodeString *)
}.

(** The order in which the runtime walks a map is not specified and may
    change from one [range] statement to the next: the [t]-th [range]
    of a run yields the entries in the order [rangeOrder t]. *)
Class GoRuntime := {
  rangeOrder : nat → ∀ A : Type, list A → list A;
  rangeOrder_perm : ∀ t A (l : list A), rangeOrder t A l ≡ₚ l;
}.

(** One call of the [writeFile] callback handed to [Builder.Build]. *)
Record write := MkWrite { w_dir : str; w_name : str; w_data : str }.

(** The file sink: its answer to a call may depend on the calls before. *)
Definition sink := list write → write → option error.

(** The state the run threads along: the number of [range] statements
    over maps executed so far and the calls made to the sink. *)
Record world := World { tick : nat; log : list write }.

Definition St (A : Type) : Type := world → A * world.

Definition ret {A} (a : A) : St A := λ w, (a, w).
Definition bind {A B} (m : St A) (k : A → St B) : St B :=
  λ w, let '(a, w') := m w in k a w'.

Notation "'let*' x := m 'in' k" := (bind m (λ x, k))
  (at level 10, x name, m at level 100, k at level 200, only parsing).
Notation "'let*' ' p := m 'in' k" := (bind m (λ x, match x with p => k end))
  (at level 10, p pattern, m at level 100, k at level 200, only parsing).

(** [for key, value := range m]: the entries in the order of this walk. *)
Definition rangeMap `{GoRuntime} {V} (m : gmap str V) : St (list (str * V)) :=
  λ w, (rangeOrder (tick w) _ (map_to_list m), World (S (tick w)) (log w)).

(** [writeFile(dir, name, data)] on the sink [snk]. *)
Definition put (snk : sink) (dir name data : str) : St (option error) :=
  λ w, let c := MkWrite dir name data in
       (snk (log w) c, World (tick w) (log w ++ [c])).

(** ** Routing and classification (builder file) *)

Section Program.
Context `{GoLib, GoRuntime}.

Definition newKustomizationBuilder : kustomizationBuilder :=
  {| k8sObjects := []; configMapObjects := []; secretObjects := [];
     resources := [] |}.

Definition AddK8sObject (obj : k8sObject) (k : kustomizationBuilder) :=
  {| k8sObjects := k8sObjects k ++ [obj];
     configMapObjects := configMapObjects k;
     secretObjects := secretObjects k; resources := resources k |}.

Definition AddConfigMapObjects (obj : filesObject) (k : kustomizationBuilder) :=
  {| k8sObjects := k8sObjects k;
     configMapObjects := configMapObjects k ++ [obj];
     secretObjects := secretObjects k; resources := resources k |}.

Definition AddSecretObjects (obj : filesObject) (k : kustomizationBuilder) :=
  {| k8sObjects := k8sObjects k;
     configMapObjects := configMapObjects k;
     secretObjects := secretObjects k ++ [obj]; resources := resources k |}.

Definition AddResource (resource : str) (k : kustomizationBuilder) :=
  {| k8sObjects := k8sObjects k;
     configMapObjects := configMapObjects k;
     secretObjects := secretObjects k; resources := resources k ++ [resource] |}.

Definition NewBuilder : Builder :=
  {| dirs := {[ ([] : str) := newKustomizationBuilder ]} |}.

Definition parseYAMLObject (data : str) : k8sObject * bool * option error :=
  match yamlUnmarshal data with
  | Err err => (k8sObject_zero, true, Some err)
  | Ok obj =>
      if bool_decide (Kind obj = []) || bool_decide (APIVersion obj = [])
         || bool_decide (Name (Metadata obj) = [])
      then (k8sObject_zero, true, None)
      else (obj, false, None)
  end.

Definition cloneBytes (data : str) : str := data.

Definition getTargetDir (obj : k8sObject) : str :=
  if bool_decide (APIVersion obj = "apiextensions.k8s.io/v1")
     && bool_decide (Kind obj = "CustomResourceDefinition")
  then "crd"
  else
    let labels := Labels (Metadata obj) in
    if bool_decide (mapIndex labels "app.kubernetes.io/component" ≠ [])
    then mapIndex labels "app.kubernetes.io/component"
    else if bool_decide (mapIndex labels "component" ≠ [])
    then mapIndex labels "component"
    else if bool_decide (mapIndex labels "app.kubernetes.io/name" ≠ [])
    then mapIndex labels "app.kubernetes.io/name"
    else if bool_decide (mapIndex labels "app" ≠ [])
    then mapIndex labels "app"
    else [].

(** [getKustomization] answers a pointer into [b.dirs]: here the key of
    the directory, next to the builder it has updated.  the root entry of [b.dirs] is
    there from [NewBuilder] on. *)
Definition getKustomization (obj : k8sObject) (b : Builder) : str * Builder :=
  let dir := getTargetDir obj in
  match dirs b !! dir with
  | Some _ => (dir, b)
  | None =>
      let d := <[dir := newKustomizationBuilder]> (dirs b) in
      (dir, {| dirs := alter (AddResource dir) [] d |})
  end.

(** A method call on the builder [getKustomization] points to. *)
Definition onKustomization (obj : k8sObject) (b : Builder)
    (method : kustomizationBuilder → kustomizationBuilder) : Builder :=
  let '(dir, b') := getKustomization obj b in
  {| dirs := alter method dir (dirs b') |}.

(** [for key, value := range m { data, err := DecodeString(value); ... ;
    files[key] = data }] *)
Fixpoint decodeInto (entries : list (str * str)) (fs : gmap str str)
    : result (gmap str str) :=
  match entries with
  | [] => Ok fs
  | (key, value) :: rest =>
      match DecodeString value with
      | Err err => Err err
      | Ok data => decodeInto rest (<[key := data]> fs)
      end
  end.

(** [for key, value := range m { files[key] = []byte(value) }] *)
Definition copyInto (entries : list (str * str)) (fs : gmap str str)
    : gmap str str :=
  foldl (λ fs kv, <[kv.1 := kv.2]> fs) fs entries.

Definition handleConfigMap (obj : k8sObject) (b : Builder) : St (result Builder) :=
  let fs : gmap str str := ∅ in
  let* entries := rangeMap (Data obj) in
  let fs := copyInto entries fs in
  let* entries := rangeMap (BinaryData obj) in
  match decodeInto entries fs with
  | Err err => ret (Err err)
  | Ok fs =>
      let fileGroup := {| fo_k8sObject := obj; files := fs |} in
      ret (Ok (onKustomization obj b (AddConfigMapObjects fileGroup)))
  end.

Definition handleSecret (obj : k8sObject) (b : Builder) : St (result Builder) :=
  let fs : gmap str str := ∅ in
  let* entries := rangeMap (Data obj) in
  match decodeInto entries fs with
  | Err err => ret (Err err)
  | Ok fs =>
      let* entries := rangeMap (StringData obj) in
      let fs := copyInto entries fs in
      let fileGroup := {| fo_k8sObject := obj; files := fs |} in
      ret (Ok (onKustomization obj b (AddSecretObjects fileGroup)))
  end.

Definition handleGenericResource (obj : k8sObject) (b : Builder)
    : St (result Builder) :=
  ret (Ok (onKustomization obj b (AddK8sObject obj))).

Definition handleResourceType (obj : k8sObject) (b : Builder)
    : St (result Builder) :=
  if bool_decide (APIVersion obj = "v1") && bool_decide (Kind obj = "ConfigMap")
  then handleConfigMap obj b
  else if bool_decide (APIVersion obj = "v1") && bool_decide (Kind obj = "Secret")
  then handleSecret obj b
  else handleGenericResource obj b.

(** The body of [for scanner.Scan() { ... }] in [Process], over the
    tokens of the scanner.  [Process] answers an error or [nil]; the
    builder it has filled so far stays as it is. *)
Fixpoint processTokens (tokens : list str) (b : Builder)
    : St (option error * Builder) :=
  match tokens with
  | [] => ret (None, b)
  | data :: tokens' =>
      let data := TrimSpace data in
      if len data =? 0 then processTokens tokens' b
      else
        match parseYAMLObject data with
        | (_, _, Some err) => ret (Some err, b)
        | (_, true, None) => processTokens tokens' b
        | (obj, false, None) =>
            let obj := setRaw obj (cloneBytes data) in
            let* r := handleResourceType obj b in
            match r with
            | Err err => ret (Some err, b)
            | Ok b' => processTokens tokens' b'
            end
        end
  end.

Definition Process (r : str) (b : Builder) : St (option error * Builder) :=
  processTokens (Scanner.scanTokens r) b.

(** ** Filename resolution (kustomization builder file) *)

Definition charEqual (a b : ascii) : bool :=
  if bool_decide (a = b) then true
  else if bool_decide (a = "-"%char) && bool_decide (b = "_"%char) then true
  else if bool_decide (a = "_"%char) && bool_decide (b = "-"%char) then true
  else false.

Definition trimPrefix (s prefix : str) : str :=
  if (length s <? length prefix)%nat then s
  else
    let l := length prefix in
    if forallb (λ i, charEqual (byteAt s i) (byteAt prefix i)) (seq 0 l)
    then drop l s
    else s.

(** The loop [for i := 0; i < minLen; i++] of [longestCommonPrefix]:
    [todo] iterations are left, the next index is [i]. *)
Fixpoint lcpLoop (first : str) (others : list str) (minLen i todo : nat) : str :=
  match todo with
  | O => take minLen first
  | S todo' =>
      let char := byteAt first i in
      if forallb (λ s, charEqual (byteAt s i) char) others
      then lcpLoop first others minLen (S i) todo'
      else take i first
  end.

Definition longestCommonPrefix (strs : list str) : str :=
  match strs with
  | [] => []
  | [_] => []
  | first :: others =>
      let minLen :=
        foldl (λ minLen s, if (length s <? minLen)%nat then length s else minLen)
              (length first) others in
      lcpLoop first others minLen 0 minLen
  end.

Definition indexOfSeparator (s : str) : Z :=
  let idx := LastIndexAny s "-_" in
  if idx =? -1 then -1 else idx + 1.

Definition getShortName (obj : k8sObject) : str :=
  let name := Name (Metadata obj) in
  let instance := mapIndex (Labels (Metadata obj)) "app.kubernetes.io/instance" in
  let name := if bool_decide (instance ≠ []) then trimPrefix name (instance ++ "-")
              else name in
  ReplaceAll name ":"%char "_"%char.

Definition getGeneratorObjectShortFilenameByKey (obj : k8sObject) (key : str) : str :=
  key.

Definition getGeneratorObjectShortFilenameByKeyAndKind (obj : k8sObject) (key : str) : str :=
  let kind := ToLower (Kind obj) in
  kind ++ "_" ++ key.

Definition getGeneratorObjectFilenameByKeyAndName (obj : k8sObject) (key : str) : str :=
  getShortName obj ++ "_" ++ key.

Definition getGeneratorObjectFilenameFull (obj : k8sObject) (key : str) : str :=
  let kind := ToLower (Kind obj) in
  getShortName obj ++ "_" ++ kind ++ "_" ++ key.

Definition getK8sObjectShortFilenameByKind (obj : k8sObject) : str :=
  let kind := ToLower (Kind obj) in
  kind ++ ".yaml".

Definition getK8sObjectShortFilenameByName (obj : k8sObject) : str :=
  getShortName obj ++ ".yaml".

Definition getK8sObjectShortFilenameByNameAndKind (obj : k8sObject) : str :=
  getShortName obj ++ "_" ++ ToLower (Kind obj) ++ ".yaml".

Definition getK8sObjectFilenameFull (obj : k8sObject) : str :=
  let kind := ToLower (Kind obj) in
  let kind :=
    if negb (Contains (APIVersion obj) ".") && HasSuffix (APIVersion obj) "/v1"
    then TrimSuffix (APIVersion obj) "/v1" ++ "_" ++ kind
    else if bool_decide (APIVersion obj ≠ "v1")
    then ReplaceAll (APIVersion obj) "/"%char "_"%char ++ "_" ++ kind
    else kind in
  getShortName obj ++ "_" ++ kind ++ ".yaml".

Definition getCRDFilename (obj : k8sObject) : str :=
  if bool_decide (Group (Spec obj) = []) || bool_decide (Plural (Names (Spec obj)) = [])
  then []
  else Group (Spec obj) ++ "_" ++ Plural (Names (Spec obj)) ++ ".yaml".

Definition fillMap (uniq : gset str) (items : list str) : gset str :=
  foldl (λ uniq item, {[ item ]} ∪ uniq) uniq items.

(** The three tests on one candidate name, and the bookkeeping after
    them: [None] is the early [return nil, false]. *)
Definition checkName (uniq : gset str) (name : str)
    (acc : list str * gset str) : option (list str * gset str) :=
  let '(items, localUniq) := acc in
  if bool_decide (name = []) then None
  else if bool_decide (name ∈ uniq) then None
  else if bool_decide (name ∈ localUniq) then None
  else Some (items ++ [name], {[ name ]} ∪ localUniq).

Fixpoint isUniqueK8sLoop (objects : list k8sObject) (uniq : gset str)
    (fn : k8sObject → str) (acc : list str * gset str) : option (list str) :=
  match objects with
  | [] => Some acc.1
  | obj :: objects' =>
      match checkName uniq (fn obj) acc with
      | None => None
      | Some acc' => isUniqueK8sLoop objects' uniq fn acc'
      end
  end.

(** [(items, true)] is [Some items]; [(nil, false)] is [None]. *)
Definition isUniqueFilenameFuncForK8sObjects (objects : list k8sObject)
    (uniq : gset str) (fn : k8sObject → str) : option (list str) :=
  isUniqueK8sLoop objects uniq fn ([], ∅).

Definition removeK8sObjectsPrefix (fn : k8sObject → str) (prefix : str)
    : k8sObject → str :=
  λ obj, trimPrefix (fn obj) prefix.

(** The loop [for i, fun := range funcs] of
    [selectUniqueFilenameFuncForK8sObjects]; the map [uniq] is updated in
    place, so its new value is answered next to the function. *)
Fixpoint selectK8sLoop (i : nat) (funcs : list (k8sObject → str))
    (objects : list k8sObject) (uniq : gset str)
    : option (k8sObject → str) * gset str :=
  match funcs with
  | [] => (None, uniq)
  | fn :: funcs' =>
      match isUniqueFilenameFuncForK8sObjects objects uniq fn with
      | None => selectK8sLoop (S i) funcs' objects uniq
      | Some items =>
          if (i =? 0)%nat then (Some fn, fillMap uniq items)
          else
            let prefix := longestCommonPrefix items in
            if bool_decide (prefix = []) then (Some fn, fillMap uniq items)
            else
              let index := indexOfSeparator prefix in
              if index <=? 0 then (Some fn, fillMap uniq items)
              else
                let newFunc := removeK8sObjectsPrefix fn (sliceTo prefix index) in
                match isUniqueFilenameFuncForK8sObjects objects uniq newFunc with
                | Some newItems => (Some newFunc, fillMap uniq newItems)
                | None => (Some fn, fillMap uniq items)
                end
      end
  end.

Definition k8sObjectFuncs : list (k8sObject → str) :=
  [ getCRDFilename;
    getK8sObjectShortFilenameByKind;
    getK8sObjectShortFilenameByName;
    getK8sObjectShortFilenameByNameAndKind;
    getK8sObjectFilenameFull ].

Definition selectUniqueFilenameFuncForK8sObjects (objects : list k8sObject)
    (uniq : gset str) : option (k8sObject → str) * gset str :=
  selectK8sLoop 0 k8sObjectFuncs objects uniq.

(** The inner loop [for key := range obj.files] of [isUniqueFilenameFunc]. *)
Fixpoint isUniqueKeysLoop (obj : k8sObject) (entries : list (str * str))
    (uniq : gset str) (fn : k8sObject → str → str)
    (acc : list str * gset str) : option (list str * gset str) :=
  match entries with
  | [] => Some acc
  | (key, _) :: entries' =>
      match checkName uniq (fn obj key) acc with
      | None => None
      | Some acc' => isUniqueKeysLoop obj entries' uniq fn acc'
      end
  end.

Fixpoint isUniqueFilesLoop (objects : list filesObject) (uniq : gset str)
    (fn : k8sObject → str → str) (acc : list str * gset str)
    : St (option (list str)) :=
  match objects with
  | [] => ret (Some acc.1)
  | obj :: objects' =>
      let* entries := rangeMap (files obj) in
      match isUniqueKeysLoop (fo_k8sObject obj) entries uniq fn acc with
      | None => ret None
      | Some acc' => isUniqueFilesLoop objects' uniq fn acc'
      end
  end.

Definition isUniqueFilenameFunc (objects : list filesObject) (uniq : gset str)
    (fn : k8sObject → str → str) : St (option (list str)) :=
  isUniqueFilesLoop objects uniq fn ([], ∅).

Definition removeGeneratorObjectPrefix (fn : k8sObject → str → str) (prefix : str)
    : k8sObject → str → str :=
  λ obj key, trimPrefix (fn obj key) prefix.

(** The loop [for _, fun := range funcs] of
    [selectUniqueFilenameFuncForFiles]. *)
Fixpoint selectFilesLoop (funcs : list (k8sObject → str → str))
    (objects : list filesObject) (uniq : gset str)
    : St (option (k8sObject → str → str) * gset str) :=
  match funcs with
  | [] => ret (None, uniq)
  | fn :: funcs' =>
      let* r := isUniqueFilenameFunc objects uniq fn in
      match r with
      | None => selectFilesLoop funcs' objects uniq
      | Some items =>
          let prefix := longestCommonPrefix items in
          if bool_decide (prefix = []) then ret (Some fn, fillMap uniq items)
          else
            let index := indexOfSeparator prefix in
            if index <=? 0 then ret (Some fn, fillMap uniq items)
            else
              let newFunc := removeGeneratorObjectPrefix fn (sliceTo prefix index) in
              let* r' := isUniqueFilenameFunc objects uniq newFunc in
              match r' with
              | Some newItems => ret (Some newFunc, fillMap uniq newItems)
              | None => ret (Some fn, fillMap uniq items)
              end
      end
  end.

Definition generatorObjectFuncs : list (k8sObject → str → str) :=
  [ getGeneratorObjectShortFilenameByKey;
    getGeneratorObjectShortFilenameByKeyAndKind;
    getGeneratorObjectFilenameByKeyAndName;
    getGeneratorObjectFilenameFull ].

Definition selectUniqueFilenameFuncForFiles (objects : list filesObject)
    (uniq : gset str) : St (option (k8sObject → str → str) * gset str) :=
  selectFilesLoop generatorObjectFuncs objects uniq.

(** ** The emitter (kustomization builder file) *)

(** [fmt.Fprintf(buf, "- %s\n", s)] *)
Definition resourceLine (s : str) : str := "- " ++ s ++ [LF].

Fixpoint writeResourceObjects (buf : str) (objects : list k8sObject)
    (filenameFunc : k8sObject → str)
    (writeFile : str → str → St (option error)) : St (result str) :=
  match objects with
  | [] => ret (Ok buf)
  | obj :: objects' =>
      let name := filenameFunc obj in
      let* err := writeFile name (Raw obj) in
      match err with
      | Some err => ret (Err err)
      | None =>
          writeResourceObjects (buf ++ resourceLine name) objects'
            filenameFunc writeFile
      end
  end.

Definition writeResources (buf : str) (resources : list str)
    (objects : list k8sObject) (filenameFunc : k8sObject → str)
    (writeFile : str → str → St (option error)) : St (result str) :=
  if (0 <? length resources)%nat || (0 <? length objects)%nat then
    let buf := buf ++ [LF] ++ "resources:" ++ [LF] in
    let buf := foldl (λ buf resource, buf ++ resourceLine resource) buf resources in
    writeResourceObjects buf objects filenameFunc writeFile
  else ret (Ok buf).

Definition writeMapFields (buf : str) (fieldName : str) (data : gmap str str)
    : St str :=
  if (0 <? size data)%nat then
    let buf := buf ++ "    " ++ fieldName ++ ":" ++ [LF] in
    let* entries := rangeMap data in
    ret (foldl (λ buf kv, buf ++ "      " ++ Quote kv.1 ++ ": " ++ Quote kv.2 ++ [LF])
               buf entries)
  else ret buf.

(** The loop [for key, data := range files] of [writeFiles]. *)
Fixpoint writeFileEntries (buf : str) (entries : list (str * str))
    (filenameFunc : k8sObject → str → str) (k8sObj : k8sObject)
    (writeFile : str → str → St (option error)) : St (result str) :=
  match entries with
  | [] => ret (Ok buf)
  | (key, data) :: entries' =>
      let name := filenameFunc k8sObj key in
      let* err := writeFile name data in
      match err with
      | Some err => ret (Err err)
      | None =>
          let buf :=
            if bool_decide (name ≠ key) then buf ++ "  - " ++ key ++ "=" ++ name ++ [LF]
            else buf ++ "  - " ++ key ++ [LF] in
          writeFileEntries buf entries' filenameFunc k8sObj writeFile
      end
  end.

Definition writeFiles (buf : str) (fs : gmap str str)
    (filenameFunc : k8sObject → str → str) (k8sObj : k8sObject)
    (writeFile : str → str → St (option error)) : St (result str) :=
  let buf := buf ++ "  files:" ++ [LF] in
  let* entries := rangeMap fs in
  writeFileEntries buf entries filenameFunc k8sObj writeFile.

(** The loop [for _, obj := range objects] of [writeGenerators]. *)
Fixpoint writeGeneratorObjects (buf : str) (generatorType : str)
    (objects : list filesObject) (filenameFunc : k8sObject → str → str)
    (writeFile : str → str → St (option error)) : St (result str) :=
  match objects with
  | [] => ret (Ok buf)
  | obj :: objects' =>
      let o := fo_k8sObject obj in
      let buf := buf ++ "- name: " ++ Name (Metadata o) ++ [LF] in
      let buf := if bool_decide (Namespace (Metadata o) ≠ [])
                 then buf ++ "  namespace: " ++ Namespace (Metadata o) ++ [LF]
                 else buf in
      let buf := if bool_decide (generatorType = "secretGenerator")
                    && bool_decide (Type_ o ≠ [])
                 then buf ++ "  type: " ++ Type_ o ++ [LF]
                 else buf in
      let buf := buf ++ "  options:" ++ [LF] in
      let buf := buf ++ "    disableNameSuffixHash: true" ++ [LF] in
      let* buf := writeMapFields buf "annotations" (Annotations (Metadata o)) in
      let* buf := writeMapFields buf "labels" (Labels (Metadata o)) in
      let buf := if Immutable o then buf ++ "    immutable: true" ++ [LF] else buf in
      let* r := writeFiles buf (files obj) filenameFunc o writeFile in
      match r with
      | Err err => ret (Err err)
      | Ok buf =>
          writeGeneratorObjects buf generatorType objects' filenameFunc writeFile
      end
  end.

Definition writeGenerators (buf : str) (generatorType : str)
    (objects : list filesObject) (filenameFunc : k8sObject → str → str)
    (writeFile : str → str → St (option error)) : St (result str) :=
  if (0 <? length objects)%nat then
    let buf := buf ++ [LF] ++ generatorType ++ ":" ++ [LF] in
    writeGeneratorObjects buf generatorType objects filenameFunc writeFile
  else ret (Ok buf).

(** The reserved names a directory starts from: the manifest and the
    sub-directories its manifest lists. *)
Definition initialUniq (k : kustomizationBuilder) : gset str :=
  foldl (λ uniq resource, {[ resource ]} ∪ uniq)
        {[ ("kustomization.yaml" : str) ]} (resources k).

(** The first half of [kustomizationBuilder.Build]: the three filename
    functions, resolved one batch after the other on one map [uniq]. *)
Definition resolveFilenames (k : kustomizationBuilder)
    : St (result ((k8sObject → str) * (k8sObject → str → str)
                  * (k8sObject → str → str))) :=
  let uniq := initialUniq k in
  let '(k8sObjectFilenameFunc, uniq) :=
    selectUniqueFilenameFuncForK8sObjects (k8sObjects k) uniq in
  match k8sObjectFilenameFunc with
  | None => ret (Err (Errorf "no unique filename for k8s objects"))
  | Some fk =>
      let* '(configMapObjectFilenameFunc, uniq) :=
        selectUniqueFilenameFuncForFiles (configMapObjects k) uniq in
      match configMapObjectFilenameFunc with
      | None => ret (Err (Errorf "no unique filename for config map objects"))
      | Some fc =>
          let* '(secretObjectFilenameFunc, uniq) :=
            selectUniqueFilenameFuncForFiles (secretObjects k) uniq in
          match secretObjectFilenameFunc with
          | None => ret (Err (Errorf "no unique filename for secret objects"))
          | Some fs => ret (Ok (fk, fc, fs))
          end
      end
  end.

Definition manifestHeader : str :=
  "apiVersion: kustomize.config.k8s.io/v1beta1" ++ [LF]
  ++ "kind: Kustomization" ++ [LF].

(** The second half of [kustomizationBuilder.Build]: the files, then the
    manifest that lists them. *)
Definition emit (k : kustomizationBuilder)
    (fk : k8sObject → str) (fc fs : k8sObject → str → str)
    (writeFile : str → str → St (option error)) : St (option error) :=
  let buf := manifestHeader in
  let* r := writeResources buf (resources k) (k8sObjects k) fk writeFile in
  match r with
  | Err err => ret (Some err)
  | Ok buf =>
      let* r := writeGenerators buf "configMapGenerator" (configMapObjects k)
                  fc writeFile in
      match r with
      | Err err => ret (Some err)
      | Ok buf =>
          let* r := writeGenerators buf "secretGenerator" (secretObjects k)
                      fs writeFile in
          match r with
          | Err err => ret (Some err)
          | Ok buf => writeFile "kustomization.yaml" buf
          end
      end
  end.

Definition kustomizationBuilder_Build (k : kustomizationBuilder)
    (writeFile : str → str → St (option error)) : St (option error) :=
  let* r := resolveFilenames k in
  match r with
  | Err err => ret (Some err)
  | Ok (fk, fc, fs) => emit k fk fc fs writeFile
  end.

(** The loop [for _, dir := range sortedDirs] of [Builder.Build].  Every
    name of [sortedDirs] is a key of [b.dirs]. *)
Fixpoint buildDirs (b : Builder) (sortedDirs : list str) (writeFile : sink)
    : St (option error) :=
  match sortedDirs with
  | [] => ret None
  | dir :: sortedDirs' =>
      match dirs b !! dir with
      | None => buildDirs b sortedDirs' writeFile
      | Some k =>
          let* err := kustomizationBuilder_Build k (put writeFile dir) in
          match err with
          | Some err => ret (Some err)
          | None => buildDirs b sortedDirs' writeFile
          end
      end
  end.

Definition Builder_Build (b : Builder) (writeFile : sink) : St (option error) :=
  let* entries := rangeMap (dirs b) in
  let sortedDirs := sortStrings (entries.*1) in
  buildDirs b sortedDirs writeFile.

End Program.

(** ** A concrete library and two runtimes, to run the program on examples *)

Definition DQUOTE : ascii := "034"%char.

(** [strings.ToLower] on ASCII text. *)
Definition asciiToLower (s : str) : str :=
  (λ c, let n := N_of_ascii c in
        if (65 <=? n)%N && (n <=? 90)%N then ascii_of_N (n + 32) else c) <$> s.

(** [bytes.TrimSpace] on ASCII text. *)
Definition asciiTrimSpace (s : str) : str :=
  let dropSpace := fix go (s : str) : str :=
    match s with
    | c :: s' => if Ascii.is_space c then go s' else s
    | [] => []
    end in
  reverse (dropSpace (reverse (dropSpace s))).

(** The %q verb on printable ASCII text without quotes and backslashes. *)
Definition asciiQuote (s : str) : str := DQUOTE :: s ++ [DQUOTE].

Definition b64value (c : ascii) : option N :=
  let n := N_of_ascii c in
  if (65 <=? n)%N && (n <=? 90)%N then Some (n - 65)%N
  else if (97 <=? n)%N && (n <=? 122)%N then Some (n - 71)%N
  else if (48 <=? n)%N && (n <=? 57)%N then Some (n + 4)%N
  else if (n =? 43)%N then Some 62%N
  else if (n =? 47)%N then Some 63%N
  else None.

Definition b64bytes (vals : list N) (count : nat) : str :=
  let n := foldl (λ acc v, acc * 64 + v)%N 0%N vals in
  let n := (n * 64 ^ (4 - N.of_nat (length vals)))%N in
  take count [ ascii_of_N (n / 65536); ascii_of_N ((n / 256) mod 256);
               ascii_of_N (n mod 256) ].

Definition corrupt : error := CorruptInputError "illegal base64 data".

Fixpoint b64quanta (s : str) : result str :=
  match s with
  | [] => Ok []
  | a :: b :: c :: d :: rest =>
      match b64value a, b64value b with
      | Some va, Some vb =>
          match b64value c, b64value d, rest with
          | Some vc, Some vd, _ =>
              match b64quanta rest with
              | Ok out => Ok (b64bytes [va; vb; vc; vd] 3 ++ out)
              | Err e => Err e
              end
          | Some vc, None, [] =>
              if bool_decide (d = "="%char) then Ok (b64bytes [va; vb; vc] 2)
              else Err corrupt
          | None, None, [] =>
              if bool_decide (c = "="%char) && bool_decide (d = "="%char)
              then Ok (b64bytes [va; vb] 1) else Err corrupt
          | _, _, _ => Err corrupt
          end
      | _, _ => Err corrupt
      end
  | _ => Err corrupt
  end.

(** [base64.StdEncoding.DecodeString]: padded, new lines ignored. *)
Definition stdDecodeString (s : str) : result str :=
  b64quanta (filter (λ c, c ≠ LF ∧ c ≠ "013"%char) s).

(** A decoder that knows the documents of a table, for examples that start
    from bytes; any other document is malformed. *)
Definition tableUnmarshal (table : list (str * k8sObject)) (data : str)
    : result k8sObject :=
  match list_find (λ entry, entry.1 = data) table with
  | Some (_, (_, obj)) => Ok obj
  | None => Err (YAMLError "yaml: unmarshal errors")
  end.

Definition exampleLib (table : list (str * k8sObject)) : GoLib :=
  {| ToLower := asciiToLower; TrimSpace := asciiTrimSpace; Quote := asciiQuote;
     yamlUnmarshal := tableUnmarshal table; DecodeString := stdDecodeString |}.

(** A runtime that walks every map in the order of [map_to_list], and one
    that walks it backwards. *)
Definition forwardRuntime : GoRuntime :=
  {| rangeOrder := λ _ _ l, l;
     rangeOrder_perm := λ _ _ l, reflexivity l |}.

Definition backwardRuntime : GoRuntime :=
  {| rangeOrder := λ _ _ l, reverse l;
     rangeOrder_perm := λ _ A l, reverse_Permutation l |}.

(** A sink that accepts every write. *)
Definition okSink : sink := λ _ _, None.

Definition world0 : world := World 0 [].

(** A resource with identity fields and labels only. *)
Definition resource (kind apiVersion namespace name : str)
    (labels : list (str * str)) : k8sObject :=
  {| Kind := kind; APIVersion := apiVersion;
     Metadata := {| Namespace := namespace; Name := name;
                    Labels := list_to_map labels; Annotations := ∅ |};
     Spec := {| Group := []; Names := {| Plural := [] |} |};
     Data := ∅; BinaryData := ∅; StringData := ∅;
     Immutable := false; Type_ := []; Raw := kind ++ "/" ++ name |}.

Global Instance write_eq_dec : EqDecision write.
Proof. solve_decision. Defined.

(** The library of the examples. *)
Definition exLib : GoLib := exampleLib [].

(** Two Deployments of one name in two namespaces. *)
Definition webA : k8sObject := resource "Deployment" "apps/v1" "a" "web" [].
Definition webB : k8sObject := resource "Deployment" "apps/v1" "b" "web" [].

(** Two Deployments whose names share the prefix [svc-]. *)
Definition svcA : k8sObject := resource "Deployment" "apps/v1" [] "svc-a" [].
Definition svcB : k8sObject := resource "Deployment" "apps/v1" [] "svc-b" [].

(** A Flux Kustomization, alone in the root directory. *)
Definition flux : k8sObject :=
  resource "Kustomization" "kustomize.toolkit.fluxcd.io/v1" "flux-system"
    "flux-system" [].

(** One Deployment in the directory [x], one in the directory [y]. *)
Definition webX : k8sObject :=
  resource "Deployment" "apps/v1" [] "web" [("app" : str, "x" : str)].
Definition webY : k8sObject :=
  resource "Deployment" "apps/v1" [] "web" [("app" : str, "y" : str)].

(** The builder of the directory [x] after [webX]. *)
Definition dirX : kustomizationBuilder :=
  {| k8sObjects := [webX]; configMapObjects := []; secretObjects := [];
     resources := [] |}.

(** A ConfigMap with two plain entries. *)
Definition cfg : k8sObject :=
  {| Kind := "ConfigMap"; APIVersion := "v1";
     Metadata := {| Namespace := []; Name := "cfg"; Labels := ∅; Annotations := ∅ |};
     Spec := {| Group := []; Names := {| Plural := [] |} |};
     Data := {[ ("a" : str) := ("1" : str); ("b" : str) := ("2" : str) ]};
     BinaryData := ∅; StringData := ∅;
     Immutable := false; Type_ := []; Raw := "ConfigMap/cfg" |}.


(** ** Vocabulary of the specification *)



(** The first non-empty string of a list, or the empty string. *)
Fixpoint firstNonEmpty (l : list str) : str :=
  match l with
  | [] => []
  | s :: l' => if bool_decide (s ≠ []) then s else firstNonEmpty l'
  end.

(** The apiVersion/kind pair of a custom resource definition. *)
Definition isDefinitionKind (obj : k8sObject) : Prop :=
  APIVersion obj = "apiextensions.k8s.io/v1"
  ∧ Kind obj = "CustomResourceDefinition".

(** Routing, in the words of the specification: [crd] for a definition
    kind, else the first non-empty label in the priority order, else the
    root. *)
Definition routeSpec (obj : k8sObject) : str :=
  if bool_decide (isDefinitionKind obj) then "crd"
  else firstNonEmpty
         (mapIndex (Labels (Metadata obj)) <$>
            [ "app.kubernetes.io/component" : str; "component" : str;
              "app.kubernetes.io/name" : str; "app" : str ]).

(** A separator character. *)
Definition isSeparator (c : ascii) : Prop := c = "-"%char ∨ c = "_"%char.

(** [p] is a prefix of [s] when [-] and [_] are taken as equal. *)
Definition eqvPrefix (p s : str) : Prop :=
  (length p ≤ length s)%nat
  ∧ ∀ j, (j < length p)%nat → charEqual (byteAt s j) (byteAt p j) = true.

(** [p] is a longest common prefix of [names], [-] and [_] taken as equal. *)
Definition isLongestCommonPrefix (p : str) (names : list str) : Prop :=
  (∀ s, s ∈ names → eqvPrefix p s)
  ∧ ∀ q, (∀ s, s ∈ names → eqvPrefix q s) → (length q ≤ length p)%nat.

(** The three acceptance conditions on a batch of names: none is empty,
    no two are equal, none is reserved. *)
Definition validBatch (uniq : gset str) (names : list str) : Prop :=
  Forall (λ n, n ≠ []) names ∧ NoDup names ∧ Forall (λ n, n ∉ uniq) names.

Global Instance validBatch_dec uniq names : Decision (validBatch uniq names).
Proof. unfold validBatch. apply _. Defined.

(** [checkName] along a list of candidate names. *)
Fixpoint checkAll (uniq : gset str) (names : list str)
    (acc : list str * gset str) : option (list str * gset str) :=
  match names with
  | [] => Some acc
  | name :: names' =>
      match checkName uniq name acc with
      | None => None
      | Some acc' => checkAll uniq names' acc'
      end
  end.

(** What whole-resource resolution answers when [fn], at index [i] of
    the strategy list, is the first strategy accepted on [objects]. *)
Definition refinementOutcome `{GoLib} (i : nat) (fn : k8sObject → str)
    (objects : list k8sObject) (uniq : gset str) : Prop :=
  let items := fn <$> objects in
  let kept := (Some fn, uniq ∪ list_to_set items) in
  let result := selectUniqueFilenameFuncForK8sObjects objects uniq in
  (i = 0%nat → result = kept)
  ∧ (i ≠ 0%nat → (length objects < 2)%nat → result = kept)
  ∧ (i ≠ 0%nat → (2 ≤ length objects)%nat →
     ∃ p, isLongestCommonPrefix p items
       ∧ ((Forall (λ c, ¬ isSeparator c) p ∧ result = kept)
          ∨ ∃ p1 c p2, p = p1 ++ c :: p2 ∧ isSeparator c
              ∧ Forall (λ c, ¬ isSeparator c) p2
              ∧ let refined := drop (length p1 + 1) <$> items in
                (validBatch uniq refined →
                 ∃ g, result = (Some g, uniq ∪ list_to_set refined)
                      ∧ g <$> objects = refined)
                ∧ (¬ validBatch uniq refined → result = kept))).

(** The names a file-entry strategy gives to the entries of a list of
    file groups, group after group. *)
Definition fileNames (fn : k8sObject → str → str) (objects : list filesObject)
    : list str :=
  objects ≫= λ obj, (λ e, fn (fo_k8sObject obj) e.1) <$> map_to_list (files obj).

(** The same names in the order in which the groups are walked when the
    first walk is the [t]-th of the run. *)
Fixpoint walkedNames `{GoRuntime} (t : nat) (fn : k8sObject → str → str)
    (objects : list filesObject) : list str :=
  match objects with
  | [] => []
  | obj :: objects' =>
      ((λ e, fn (fo_k8sObject obj) e.1) <$> rangeOrder t _ (map_to_list (files obj)))
      ++ walkedNames (S t) fn objects'
  end.

(** The writes a directory owes to the sink before its manifest: every
    generic resource under its resolved name, then every entry of every
    ConfigMap group and of every Secret group. *)
Definition resourceWrites (dir : str) (fk : k8sObject → str)
    (objects : list k8sObject) : list write :=
  (λ obj, MkWrite dir (fk obj) (Raw obj)) <$> objects.

Definition groupWrites (dir : str) (fn : k8sObject → str → str)
    (objects : list filesObject) : list write :=
  objects ≫= λ obj,
    (λ e, MkWrite dir (fn (fo_k8sObject obj) e.1) e.2) <$> map_to_list (files obj).

Definition bodyWrites (dir : str) (k : kustomizationBuilder)
    (fk : k8sObject → str) (fc fs : k8sObject → str → str) : list write :=
  resourceWrites dir fk (k8sObjects k)
  ++ groupWrites dir fc (configMapObjects k)
  ++ groupWrites dir fs (secretObjects k).

(** What one directory sends to the sink: with its filenames resolved, the
    writes it owes in some order of the map walks, cut short by the first
    failure of the sink or else followed by the manifest. *)
Definition dirWrites `{GoLib, GoRuntime} (dir : str) (k : kustomizationBuilder)
    (ws : list write) : Prop :=
  ∃ fk fc fs w0 w1 body,
    resolveFilenames k w0 = (Ok (fk, fc, fs), w1)
    ∧ body ≡ₚ bodyWrites dir k fk fc fs
    ∧ (ws `prefix_of` body
       ∨ ∃ buf, ws = body ++ [MkWrite dir "kustomization.yaml" buf]).

(** A step that owes the writes [full] to the sink has sent [ws]: a
    prefix of them, and all of them when it ended without error. *)
Definition sent {A} (r : result A) (ws full : list write) : Prop :=
  ws `prefix_of` full ∧ ∀ a, r = Ok a → ws = full.

(** What [Builder.Build] sends for the directory [d]: nothing (the run
    has stopped before, or the filenames of [d] do not resolve), or the
    writes of [d]. *)
Definition dirStep `{GoLib, GoRuntime} (b : Builder) (d : str)
    (ws : list write) : Prop :=
  ws = [] ∨ ∃ k, dirs b !! d = Some k ∧ dirWrites d k ws.

(** The place a write goes to. *)
Definition target (c : write) : str * str := (w_dir c, w_name c).

(** The resources of an example, handed to the handlers one by one. *)
Definition addAll `{GoLib, GoRuntime} (objs : list k8sObject) (b : Builder)
    : Builder :=
  foldl (λ b obj, match (handleResourceType obj b world0).1 with
                  | Ok b' => b'
                  | Err _ => b
                  end) b objs.

(** A run of [Builder.Build] on the ConfigMap [cfg] under a runtime. *)
Definition runCfg (rt : GoRuntime) : list write :=
  log (@Builder_Build exLib rt (@addAll exLib rt [cfg] NewBuilder) okSink world0).2.


(** A document misses one of its identity fields. *)
Definition missesIdentity (obj : k8sObject) : Prop :=
  Kind obj = [] ∨ APIVersion obj = [] ∨ Name (Metadata obj) = [].

(** * Proofs *)

Ltac unfold_St := unfold bind, ret, rangeMap, put in *; cbn [fst snd tick log] in *.

(** ** Byte strings *)

Section StringFacts.
Implicit Types s p sep : str.

Lemma len_app s1 s2 : len (s1 ++ s2) = len s1 + len s2.
Proof. unfold len. rewrite length_app. lia. Qed.

Lemma len_cons c s : len (c :: s) = 1 + len s.
Proof. unfold len. simpl. lia. Qed.

Lemma len_nonneg s : 0 ≤ len s.
Proof. unfold len. lia. Qed.

Lemma HasPrefix_spec s p : HasPrefix s p = true ↔ ∃ r, s = p ++ r.
Proof.
  revert s. induction p as [|c p IH]; intros s; simpl.
  - split; [by exists s | done].
  - destruct s as [|d s].
    + split; [done | intros [r Hr]; discriminate].
    + rewrite andb_true_iff, bool_decide_eq_true, IH. split.
      * intros [-> [r ->]]. eauto.
      * intros [r Hr]. injection Hr as -> ->. eauto.
Qed.


Lemma Index_unfold s sep :
  Index s sep =
    if HasPrefix s sep then 0
    else match s with
         | [] => -1
         | _ :: s' => let r := Index s' sep in if r <? 0 then -1 else r + 1
         end.
Proof. by destruct s. Qed.

Lemma Index_range s sep : Index s sep = -1 ∨ 0 ≤ Index s sep ∧ Index s sep + len sep ≤ len s.
Proof.
  induction s as [|c s IH]; simpl.
  - destruct (HasPrefix [] sep) eqn:Hp; [|by left].
    apply HasPrefix_spec in Hp as [r Hr]. symmetry in Hr.
    apply app_eq_nil in Hr as [-> _]. right. unfold len. simpl. lia.
  - destruct (HasPrefix (c :: s) sep) eqn:Hp.
    + apply HasPrefix_spec in Hp as [r Hr]. right. rewrite Hr, len_app.
      pose proof (len_nonneg r). lia.
    + destruct (Z.ltb_spec (Index s sep) 0) as [Hlt|Hge]; [by left|].
      right. destruct IH as [IH|IH]; [lia|].
      unfold len in *. simpl. lia.
Qed.



Lemma HasPrefix_app_stable s sep more :
  (length sep ≤ length s)%nat → HasPrefix (s ++ more) sep = HasPrefix s sep.
Proof.
  revert s. induction sep as [|c sep IH]; intros [|d s] Hlen; cbn in *;
    try done; try lia.
  rewrite IH by lia. done.
Qed.

(** More data after an instance of [sep] does not move the first one. *)
Lemma Index_app_stable s sep more :
  0 ≤ Index s sep → Index (s ++ more) sep = Index s sep.
Proof.
  induction s as [|c s IH]; intros Hi.
  - rewrite Index_unfold in Hi. destruct (HasPrefix [] sep) eqn:Hp; [|done].
    apply HasPrefix_spec in Hp as [r Hr]. symmetry in Hr.
    apply app_eq_nil in Hr as [-> _]. by destruct more.
  - rewrite Index_unfold in Hi. rewrite (Index_unfold (c :: s)), (Index_unfold (_ ++ _)).
    destruct (HasPrefix (c :: s) sep) eqn:Hp.
    + apply HasPrefix_spec in Hp as [r Hr].
      assert (HasPrefix ((c :: s) ++ more) sep = true) as ->; [|done].
      apply HasPrefix_spec. exists (r ++ more). by rewrite Hr, <- app_assoc.
    + cbv zeta in *.
      destruct (Z.ltb_spec (Index s sep) 0) as [|Hge]; [lia|].
      destruct (Index_range s sep) as [|[_ Hr]]; [lia|].
      rewrite (HasPrefix_app_stable (c :: s)), Hp.
      * cbn [app]. rewrite IH by done.
        destruct (Z.ltb_spec (Index s sep) 0); [lia|done].
      * unfold len in Hr. cbn [length]. lia.
Qed.

Lemma IndexByte_app_stable s c more :
  0 ≤ IndexByte s c → IndexByte (s ++ more) c = IndexByte s c.
Proof.
  induction s as [|d s IH]; cbn [IndexByte app]; [lia|].
  case_bool_decide; [done|].
  destruct (Z.ltb_spec (IndexByte s c) 0) as [|Hge]; [lia|]. intros _.
  rewrite IH by done. destruct (Z.ltb_spec (IndexByte s c) 0); [lia|done].
Qed.

Lemma IndexByte_absent s c : c ∉ s → IndexByte s c = -1.
Proof.
  induction s as [|d s IH]; intros Hno; simpl; [done|].
  apply not_elem_of_cons in Hno as [Hne Hno].
  rewrite bool_decide_eq_false_2 by done. by rewrite IH.
Qed.


Lemma IndexByte_range s c : IndexByte s c = -1 ∨ 0 ≤ IndexByte s c < len s.
Proof.
  induction s as [|d s IH]; simpl; [by left|].
  case_bool_decide; [right; unfold len; simpl; lia|].
  destruct (Z.ltb_spec (IndexByte s c) 0); [by left|].
  right. unfold len in *. simpl. lia.
Qed.

End StringFacts.

(** ** The document scanner *)

Section ScannerFacts.
Import Scanner.






Lemma len_yamlSeparator : len yamlSeparator = 4.
Proof. reflexivity. Qed.





(** A token found before the end of the stream is the token found with
    more of the stream in the buffer, at its end or not: what the scanner
    hands out does not depend on how the reader cuts the stream. *)
Lemma split_more_data data more atEOF advance token :
  splitYAMLDocument data false = (advance, Some token) →
  splitYAMLDocument (data ++ more) atEOF = (advance, Some token).
Proof.
  unfold splitYAMLDocument. cbn [andb].
  destruct (Index_range data yamlSeparator) as [Hi|[Hi1 Hi2]];
    [by rewrite Hi|].
  rewrite (Index_app_stable data) by done.
  destruct (Z.leb_spec 0 (Index data yamlSeparator)); [|lia].
  set (i := Index data yamlSeparator + len yamlSeparator) in *.
  pose proof len_yamlSeparator as Hsep. pose proof (len_nonneg more).
  assert ((len (data ++ more) =? 0) = false) as ->
    by (apply Z.eqb_neq; rewrite len_app; lia).
  rewrite andb_false_r.
  assert (sliceFrom (data ++ more) i = sliceFrom data i ++ more) as ->.
  { unfold sliceFrom. rewrite drop_app_le; [done|]. unfold len in *. lia. }
  destruct (len (sliceFrom data i) =? 0) eqn:Ha; [done|].
  apply Z.eqb_neq in Ha. pose proof (len_nonneg (sliceFrom data i)).
  assert ((len (sliceFrom data i ++ more) =? 0) = false) as ->
    by (apply Z.eqb_neq; rewrite len_app; lia).
  destruct (IndexByte_range (sliceFrom data i) LF) as [Hj|Hj]; [by rewrite Hj|].
  rewrite (IndexByte_app_stable (sliceFrom data i)) by lia.
  destruct (Z.leb_spec 0 (IndexByte (sliceFrom data i) LF)); [|lia].
  intros [= <- <-]. do 2 f_equal. unfold sliceTo.
  rewrite take_app_le; [done|]. unfold len in *. lia.
Qed.








End ScannerFacts.

(** ** Routing *)

Section RoutingFacts.
Context `{GoLib, GoRuntime}.

(** C7: routing is a total function of the resource that answers [crd] for
    a definition kind whatever its labels are, else the first non-empty
    label among app.kubernetes.io/component, component,
    app.kubernetes.io/name and app, else the root directory. *)
Theorem getTargetDir_routes obj : getTargetDir obj = routeSpec obj.
Proof.
  unfold getTargetDir, routeSpec, isDefinitionKind.
  rewrite bool_decide_and.
  destruct (bool_decide (APIVersion obj = _) && bool_decide (Kind obj = _));
    [done|].
  cbn [fmap list_fmap firstNonEmpty].
  repeat (case_bool_decide; [done|]). done.
Qed.

End RoutingFacts.

(** ** Processing the stream *)

Section ProcessFacts.
Context `{GoLib, GoRuntime}.

Lemma processTokens_app pre rest b w :
  processTokens (pre ++ rest) b w =
    match processTokens pre b w with
    | ((None, b1), w1) => processTokens rest b1 w1
    | other => other
    end.
Proof.
  revert b w. induction pre as [|data pre IH]; intros b w; [done|].
  cbn [app processTokens].
  destruct (len (TrimSpace data) =? 0); [apply IH|].
  destruct (parseYAMLObject (TrimSpace data)) as [[obj [|]] [err|]];
    try done; try apply IH.
  unfold_St. destruct (handleResourceType _ b w) as [[b'|err] w']; [apply IH|done].
Qed.

Lemma len_eqb_0 (s : str) : (len s =? 0) = bool_decide (s = []).
Proof. destruct s; [done|]. rewrite len_cons. pose proof (len_nonneg s).
  rewrite bool_decide_eq_false_2 by done. apply Z.eqb_neq. lia. Qed.

Lemma parseYAMLObject_err data err :
  yamlUnmarshal data = Err err →
  parseYAMLObject data = (k8sObject_zero, true, Some err).
Proof. unfold parseYAMLObject. by intros ->. Qed.

Lemma parseYAMLObject_skip data obj :
  yamlUnmarshal data = Ok obj → missesIdentity obj →
  parseYAMLObject data = (k8sObject_zero, true, None).
Proof.
  unfold parseYAMLObject, missesIdentity. intros -> Hm.
  repeat case_bool_decide; try done. tauto.
Qed.

Lemma parseYAMLObject_keep data obj :
  yamlUnmarshal data = Ok obj → ¬ missesIdentity obj →
  parseYAMLObject data = (obj, false, None).
Proof.
  unfold parseYAMLObject, missesIdentity. intros -> Hm.
  repeat case_bool_decide; try done; tauto.
Qed.

(** C9: of the documents of the stream, one that does not decode makes
    [Process] answer that error at once, with the builder as the documents
    before it left it and nothing after it looked at; one that decodes
    but misses its kind, apiVersion or metadata.name leaves no trace (the
    run is that of the stream without it); every other one is handed to
    the handlers, and the run goes on after it unless they fail. *)
Theorem Process_document_outcomes r pre data post b w b1 w1 :
  Scanner.scanTokens r = pre ++ data :: post →
  processTokens pre b w = ((None, b1), w1) →
  (∀ err, TrimSpace data ≠ [] → yamlUnmarshal (TrimSpace data) = Err err →
     Process r b w = ((Some err, b1), w1))
  ∧ (∀ obj, yamlUnmarshal (TrimSpace data) = Ok obj → missesIdentity obj →
     Process r b w = processTokens (pre ++ post) b w)
  ∧ (∀ obj, TrimSpace data ≠ [] → yamlUnmarshal (TrimSpace data) = Ok obj →
     ¬ missesIdentity obj →
     Process r b w =
       let '(res, w2) := handleResourceType (setRaw obj (TrimSpace data)) b1 w1 in
       match res with
       | Err err => ((Some err, b1), w2)
       | Ok b2 => processTokens post b2 w2
       end).
Proof.
  intros Hscan Hpre. unfold Process. rewrite Hscan, !processTokens_app, Hpre.
  cbn [processTokens]. rewrite len_eqb_0. split_and!.
  - intros err Hne Hy. rewrite bool_decide_eq_false_2 by done.
    by rewrite (parseYAMLObject_err _ _ Hy).
  - intros obj Hy Hm. case_bool_decide; [done|].
    by rewrite (parseYAMLObject_skip _ _ Hy Hm).
  - intros obj Hne Hy Hm. rewrite bool_decide_eq_false_2 by done.
    rewrite (parseYAMLObject_keep _ _ Hy Hm). unfold_St. unfold cloneBytes.
    by destruct (handleResourceType _ b1 w1) as [[b2|err] w2].
Qed.













End ProcessFacts.

(** ** Filename resolution *)

Section NamingFacts.
Context `{GoLib, GoRuntime}.

Lemma fillMap_union (uniq : gset str) (items : list str) :
  fillMap uniq items = uniq ∪ list_to_set items.
Proof.
  unfold fillMap. revert uniq.
  induction items as [|item items IH]; intros uniq; csimpl; [set_solver|].
  rewrite IH. set_solver.
Qed.

Lemma checkAll_app uniq (l1 l2 : list str) acc :
  checkAll uniq (l1 ++ l2) acc =
    match checkAll uniq l1 acc with
    | Some acc' => checkAll uniq l2 acc'
    | None => None
    end.
Proof.
  revert acc. induction l1 as [|n l1 IH]; intros acc; [done|].
  cbn [app checkAll]. by destruct (checkName uniq n acc).
Qed.

Lemma checkAll_Some uniq (names items res : list str) loc :
  checkAll uniq names (items, list_to_set items) = Some (res, loc) →
  res = items ++ names ∧ loc = list_to_set res
  ∧ Forall (λ n, n ≠ []) names ∧ Forall (λ n, n ∉ uniq) names
  ∧ (NoDup items → NoDup (items ++ names)).
Proof.
  revert items. induction names as [|n names IH]; intros items; cbn [checkAll].
  - intros [= <- <-]. rewrite app_nil_r. by split_and!.
  - unfold checkName. repeat case_bool_decide; try done.
    replace ({[n]} ∪ list_to_set items : gset str)
      with (list_to_set (items ++ [n]) : gset str) by set_solver.
    intros (-> & -> & Hne & Hnu & Hnd)%IH. rewrite <- app_assoc.
    split_and!; try done; try by constructor.
    intros Hi. rewrite cons_middle, app_assoc. apply Hnd. apply NoDup_app.
    split_and!; [done| |apply NoDup_singleton].
    intros x Hx ->%list_elem_of_singleton. set_solver.
Qed.

Lemma checkAll_valid uniq (names items : list str) :
  Forall (λ n, n ≠ []) names → Forall (λ n, n ∉ uniq) names →
  NoDup (items ++ names) →
  checkAll uniq names (items, list_to_set items)
  = Some (items ++ names, list_to_set (items ++ names)).
Proof.
  revert items. induction names as [|n names IH]; intros items Hne Hnu Hnd;
    cbn [checkAll].
  - by rewrite app_nil_r.
  - apply Forall_cons in Hne as [Hn Hne]. apply Forall_cons in Hnu as [Hu Hnu].
    unfold checkName. rewrite !bool_decide_eq_false_2; [|..|done|done].
    + replace ({[n]} ∪ list_to_set items : gset str)
        with (list_to_set (items ++ [n]) : gset str) by set_solver.
      rewrite IH; rewrite <- ?app_assoc; done.
    + apply NoDup_app in Hnd as (_ & Hd & _). intros Hin.
      apply (Hd n); [set_solver | by left].
Qed.

Lemma checkAll_validBatch uniq (names : list str) :
  checkAll uniq names ([], ∅) = if decide (validBatch uniq names)
                                then Some (names, list_to_set names) else None.
Proof.
  case_decide as Hv.
  - destruct Hv as (Hne & Hnd & Hnu).
    by apply (checkAll_valid uniq names []).
  - destruct (checkAll uniq names ([], ∅)) as [[res loc]|] eqn:Hc; [|done].
    apply (checkAll_Some uniq names []) in Hc as (_ & _ & Hne & Hnu & Hnd).
    destruct Hv. split_and!; [done| |done]. apply Hnd. constructor.
Qed.

Lemma isUniqueK8sLoop_checkAll objects uniq fn acc :
  isUniqueK8sLoop objects uniq fn acc = fst <$> checkAll uniq (fn <$> objects) acc.
Proof.
  revert acc. induction objects as [|obj objects IH]; intros acc; [done|].
  csimpl. by destruct (checkName uniq (fn obj) acc).
Qed.

(** A strategy is accepted on a batch of resources exactly when its names
    meet the three acceptance conditions. *)
Lemma isUniqueK8s_validBatch objects uniq fn :
  isUniqueFilenameFuncForK8sObjects objects uniq fn
  = if decide (validBatch uniq (fn <$> objects)) then Some (fn <$> objects)
    else None.
Proof.
  unfold isUniqueFilenameFuncForK8sObjects.
  rewrite isUniqueK8sLoop_checkAll, checkAll_validBatch. by case_decide.
Qed.

Lemma isUniqueK8s_Some objects uniq fn items :
  isUniqueFilenameFuncForK8sObjects objects uniq fn = Some items →
  items = fn <$> objects ∧ validBatch uniq (fn <$> objects).
Proof. rewrite isUniqueK8s_validBatch. case_decide; [|done]. by intros [= <-]. Qed.

(** Whatever function the selection answers was accepted on the batch,
    against the reserved names it was given, and its names are reserved
    from then on. *)
Lemma selectK8sLoop_sound i funcs objects uniq f uniq' :
  selectK8sLoop i funcs objects uniq = (Some f, uniq') →
  validBatch uniq (f <$> objects) ∧ uniq' = uniq ∪ list_to_set (f <$> objects).
Proof.
  revert i. induction funcs as [|fn funcs IH]; intros i; cbn [selectK8sLoop]; [done|].
  destruct (isUniqueFilenameFuncForK8sObjects objects uniq fn) as [items|] eqn:Hfn;
    [|apply IH].
  apply isUniqueK8s_Some in Hfn as [-> Hv].
  assert ((Some fn, fillMap uniq (fn <$> objects)) = (Some f, uniq') →
          validBatch uniq (f <$> objects)
          ∧ uniq' = uniq ∪ list_to_set (f <$> objects)) as Hkeep.
  { intros [= <- <-]. by rewrite fillMap_union. }
  destruct (i =? 0)%nat; [done|].
  case_bool_decide; [done|].
  destruct (indexOfSeparator _ <=? 0); [done|].
  destruct (isUniqueFilenameFuncForK8sObjects objects uniq
              (removeK8sObjectsPrefix fn _)) as [newItems|] eqn:Hnew; [|done].
  apply isUniqueK8s_Some in Hnew as [-> Hv'].
  intros [= <- <-]. by rewrite fillMap_union.
Qed.

Lemma selectK8sLoop_None i funcs objects uniq uniq' :
  selectK8sLoop i funcs objects uniq = (None, uniq') →
  uniq' = uniq ∧ Forall (λ fn, ¬ validBatch uniq (fn <$> objects)) funcs.
Proof.
  revert i. induction funcs as [|fn funcs IH]; intros i; cbn [selectK8sLoop].
  - by intros [= <-].
  - rewrite isUniqueK8s_validBatch. case_decide as Hv.
    + destruct (i =? 0)%nat; [done|]. case_bool_decide; [done|].
      destruct (_ <=? 0); [done|]. by destruct (isUniqueFilenameFuncForK8sObjects _ _ _).
    + intros [-> Hf]%IH. split; [done|]. by constructor.
Qed.

Lemma getK8sObjectFilenameFull_nonempty obj : getK8sObjectFilenameFull obj ≠ [].
Proof. unfold getK8sObjectFilenameFull. by destruct (getShortName obj). Qed.

(** C3 (amended): the fifth whole-resource strategy always yields
    non-empty names; on a batch where its names are pairwise distinct and
    none of them is reserved, whole-resource resolution does not fail: it
    answers a function that is accepted on the batch. *)
Theorem full_strategy_fallback objects uniq :
  NoDup (getK8sObjectFilenameFull <$> objects) →
  Forall (λ n, n ∉ uniq) (getK8sObjectFilenameFull <$> objects) →
  Forall (λ n, n ≠ []) (getK8sObjectFilenameFull <$> objects)
  ∧ ∃ f uniq',
      selectUniqueFilenameFuncForK8sObjects objects uniq = (Some f, uniq')
      ∧ validBatch uniq (f <$> objects).
Proof.
  intros Hnd Hnu.
  assert (Forall (λ n, n ≠ []) (getK8sObjectFilenameFull <$> objects)) as Hne.
  { apply Forall_fmap, Forall_forall. intros obj _.
    apply getK8sObjectFilenameFull_nonempty. }
  split; [done|].
  destruct (selectUniqueFilenameFuncForK8sObjects objects uniq) as [[f|] uniq'] eqn:Hsel.
  - exists f, uniq'. split; [done|].
    by apply selectK8sLoop_sound in Hsel as [Hv _].
  - apply selectK8sLoop_None in Hsel as [_ Hall].
    unfold k8sObjectFuncs in Hall.
    do 4 apply Forall_cons in Hall as [_ Hall].
    apply Forall_cons in Hall as [Hfull _]. by destruct Hfull.
Qed.

(** *** The common prefix *)

Lemma charEqual_spec a b :
  charEqual a b = true ↔ a = b ∨ (isSeparator a ∧ isSeparator b).
Proof.
  unfold charEqual, isSeparator.
  repeat case_bool_decide; cbn; split; try done; try tauto; intros; try naive_solver.
Qed.

Lemma charEqual_refl a : charEqual a a = true.
Proof. apply charEqual_spec. by left. Qed.

Lemma charEqual_sym a b : charEqual a b = true → charEqual b a = true.
Proof. rewrite !charEqual_spec. naive_solver. Qed.

Lemma charEqual_trans a b c :
  charEqual a b = true → charEqual b c = true → charEqual a c = true.
Proof. rewrite !charEqual_spec. naive_solver. Qed.

Lemma byteAt_take (s : str) (k j : nat) :
  (j < k)%nat → byteAt (take k s) j = byteAt s j.
Proof.
  unfold byteAt. revert k j. induction s as [|c s IH]; intros [|k] [|j] Hj;
    try done; try lia. cbn. apply IH. lia.
Qed.

Lemma byteAt_app_l (s1 s2 : str) (j : nat) :
  (j < length s1)%nat → byteAt (s1 ++ s2) j = byteAt s1 j.
Proof. unfold byteAt. intros Hj. by rewrite app_nth1. Qed.

Lemma eqvPrefix_take (p s : str) (k : nat) : eqvPrefix p s → eqvPrefix (take k p) s.
Proof.
  intros [Hl Hc]. split; [rewrite length_take; lia|].
  intros j Hj. rewrite length_take in Hj.
  rewrite byteAt_take by lia. apply Hc. lia.
Qed.

(** What [minLen] is after the first loop of [longestCommonPrefix]. *)
Lemma minLen_spec (others : list str) (init : nat) :
  ∃ minLen,
    foldl (λ minLen s, if (length s <? minLen)%nat then length s else minLen)
          init others = minLen
    ∧ (minLen ≤ init)%nat ∧ (∀ s, s ∈ others → (minLen ≤ length s)%nat)
    ∧ (minLen = init ∨ ∃ s, s ∈ others ∧ minLen = length s).
Proof.
  revert init. induction others as [|s others IH]; intros init; cbn [foldl].
  - exists init. split_and!; [done|lia| |by left].
    intros s Hs. by apply elem_of_nil in Hs.
  - destruct (Nat.ltb_spec (length s) init).
    + destruct (IH (length s)) as (m & Hm & Hle & Hall & Hex).
      exists m. split_and!; [done|lia| |].
      * intros s' [->|Hs']%elem_of_cons; [lia|by apply Hall].
      * right. destruct Hex as [->|(s' & Hs' & ->)].
        -- exists s. split; [by left|done].
        -- exists s'. split; [by right|done].
    + destruct (IH init) as (m & Hm & Hle & Hall & Hex).
      exists m. split_and!; [done|lia| |].
      * intros s' [->|Hs']%elem_of_cons; [lia|by apply Hall].
      * destruct Hex as [->|(s' & Hs' & ->)]; [by left|].
        right. exists s'. split; [by right|done].
Qed.

Lemma lcpLoop_spec (first : str) (others : list str) (minLen i todo : nat) :
  (i + todo = minLen)%nat →
  (∀ j s, (j < i)%nat → s ∈ others →
     charEqual (byteAt s j) (byteAt first j) = true) →
  ∃ k, (k ≤ minLen)%nat
       ∧ lcpLoop first others minLen i todo = take k first
       ∧ (∀ j s, (j < k)%nat → s ∈ others →
            charEqual (byteAt s j) (byteAt first j) = true)
       ∧ ((k < minLen)%nat →
          ∃ s, s ∈ others ∧ charEqual (byteAt s k) (byteAt first k) = false).
Proof.
  revert i. induction todo as [|todo IH]; intros i Hi Hinv; cbn [lcpLoop].
  - exists minLen. split_and!; [lia|done| |lia].
    intros j s Hj. apply Hinv. lia.
  - destruct (forallb _ others) eqn:Hall.
    + apply (IH (S i)); [lia|]. intros j s Hj Hs.
      destruct (decide (j = i)) as [->|]; [|apply Hinv; [lia|done]].
      rewrite forallb_forall in Hall. apply Hall. by apply list_elem_of_In.
    + exists i. split_and!; [lia|done|done|]. intros _.
      apply not_true_iff_false in Hall. rewrite forallb_forall in Hall.
      destruct (decide (Exists (λ s, charEqual (byteAt s i) (byteAt first i) = false)
                          others)) as [Hex|Hex].
      * apply Exists_exists in Hex as (s & Hs & Hc). eauto.
      * destruct Hall. intros s Hs%list_elem_of_In.
        destruct (charEqual (byteAt s i) (byteAt first i)) eqn:Hc; [done|].
        destruct Hex. apply Exists_exists. eauto.
Qed.

(** On two names or more, [longestCommonPrefix] answers a longest common
    prefix (with [-] and [_] taken as equal), cut from the first name. *)
Lemma longestCommonPrefix_spec (names : list str) :
  (2 ≤ length names)%nat →
  isLongestCommonPrefix (longestCommonPrefix names) names.
Proof.
  destruct names as [|first [|second others]]; cbn [length]; try lia. intros _.
  unfold longestCommonPrefix.
  set (rest := second :: others).
  destruct (minLen_spec rest (length first)) as (minLen & -> & Hle & Hall & Hex).
  destruct (lcpLoop_spec first rest minLen 0 minLen) as (k & Hk & -> & Heq & Hstop);
    [lia|intros; lia|].
  assert (length (take k first) = k) as Hlen by (rewrite length_take; lia).
  split.
  - intros s Hs. split.
    + rewrite Hlen. apply elem_of_cons in Hs as [->|Hs]; [lia|].
      specialize (Hall s Hs). lia.
    + rewrite Hlen. intros j Hj. rewrite byteAt_take by done.
      apply elem_of_cons in Hs as [->|Hs]; [apply charEqual_refl|by apply Heq].
  - intros q Hq. rewrite Hlen.
    destruct (Nat.le_gt_cases (length q) k) as [|Hgt]; [done|exfalso].
    destruct (Nat.lt_ge_cases k minLen) as [Hlt|Hge].
    + destruct (Hstop Hlt) as (s & Hs & Hc).
      destruct (Hq first) as [_ Hf]; [by left|].
      destruct (Hq s) as [_ Hsq]; [by right|].
      rewrite (charEqual_trans _ (byteAt q k) _) in Hc; [done|by apply Hsq|].
      apply charEqual_sym. by apply Hf.
    + assert (∃ s, s ∈ first :: rest ∧ length s = minLen) as (s & Hs & Hsl).
      { destruct Hex as [Heq'|(s & Hs & Heq')].
        - exists first. split; [by left|done].
        - exists s. split; [by right|done]. }
      destruct (Hq s Hs) as [Hql _]. lia.
Qed.

Lemma longestCommonPrefix_short (names : list str) :
  (length names < 2)%nat → longestCommonPrefix names = [].
Proof. destruct names as [|? [|??]]; cbn [length]; [done..|lia]. Qed.

Lemma trimPrefix_eqvPrefix (pre s : str) :
  eqvPrefix pre s → trimPrefix s pre = drop (length pre) s.
Proof.
  intros [Hl Hc]. unfold trimPrefix.
  destruct (Nat.ltb_spec (length s) (length pre)); [lia|].
  assert (forallb (λ i, charEqual (byteAt s i) (byteAt pre i))
            (seq 0 (length pre)) = true) as ->; [|done].
  apply forallb_forall. intros j Hj%in_seq. apply Hc. lia.
Qed.

Lemma LastIndexAny_spec (s chars : str) :
  (LastIndexAny s chars = -1 ∧ Forall (λ c, c ∉ chars) s)
  ∨ (∃ s1 c s2, s = s1 ++ c :: s2 ∧ c ∈ chars
                ∧ Forall (λ c, c ∉ chars) s2 ∧ LastIndexAny s chars = len s1).
Proof.
  induction s as [|c s IH]; cbn [LastIndexAny]; [by left|].
  destruct IH as [[-> Hall]|(s1 & c' & s2 & -> & Hc & Hs2 & ->)].
  - cbn [Z.leb Z.compare]. case_bool_decide.
    + right. by exists [], c, s.
    + left. split; [done|]. by constructor.
  - pose proof (len_nonneg s1). destruct (Z.leb_spec 0 (len s1)); [|lia].
    right. exists (c :: s1), c', s2. rewrite len_cons. split_and!; [done..|lia].
Qed.

Lemma elem_of_separators c : c ∈ ("-_" : str) ↔ isSeparator c.
Proof.
  unfold isSeparator. cbn. rewrite !elem_of_cons, elem_of_nil. naive_solver.
Qed.

Lemma indexOfSeparator_spec (p : str) :
  (indexOfSeparator p = -1 ∧ Forall (λ c, ¬ isSeparator c) p)
  ∨ (∃ p1 c p2, p = p1 ++ c :: p2 ∧ isSeparator c
                ∧ Forall (λ c, ¬ isSeparator c) p2
                ∧ indexOfSeparator p = len p1 + 1).
Proof.
  unfold indexOfSeparator.
  destruct (LastIndexAny_spec p "-_") as [[-> Hall]|(p1 & c & p2 & -> & Hc & Hp2 & ->)].
  - left. split; [done|]. eapply Forall_impl; [done|].
    intros c Hc. by rewrite <- elem_of_separators.
  - right. exists p1, c, p2. pose proof (len_nonneg p1).
    destruct (Z.eqb_spec (len p1) (-1)); [lia|].
    split_and!; [done|by apply elem_of_separators| |done].
    eapply Forall_impl; [done|]. intros c' Hc'. by rewrite <- elem_of_separators.
Qed.

(** *** The selection loop *)

Lemma selectK8sLoop_skip j (pre rest : list (k8sObject → str)) objects uniq :
  Forall (λ f, ¬ validBatch uniq (f <$> objects)) pre →
  selectK8sLoop j (pre ++ rest) objects uniq
  = selectK8sLoop (j + length pre) rest objects uniq.
Proof.
  revert j. induction pre as [|f pre IH]; intros j Hrej; cbn [app length].
  - by rewrite Nat.add_0_r.
  - apply Forall_cons in Hrej as [Hf Hrej]. cbn [selectK8sLoop].
    rewrite isUniqueK8s_validBatch, decide_False by done.
    rewrite IH by done. f_equal. lia.
Qed.

(** What the loop does with an accepted strategy that is not the first
    of the list. *)
Lemma selectK8sLoop_refine i fn rest objects uniq :
  i ≠ 0%nat → validBatch uniq (fn <$> objects) →
  let items := fn <$> objects in
  let kept := (Some fn, uniq ∪ list_to_set items) in
  let result := selectK8sLoop i (fn :: rest) objects uniq in
  ((length objects < 2)%nat → result = kept)
  ∧ ((2 ≤ length objects)%nat →
     ∃ p, isLongestCommonPrefix p items
       ∧ ((Forall (λ c, ¬ isSeparator c) p ∧ result = kept)
          ∨ ∃ p1 c p2, p = p1 ++ c :: p2 ∧ isSeparator c
              ∧ Forall (λ c, ¬ isSeparator c) p2
              ∧ let refined := drop (length p1 + 1) <$> items in
                (validBatch uniq refined →
                 ∃ g, result = (Some g, uniq ∪ list_to_set refined)
                      ∧ g <$> objects = refined)
                ∧ (¬ validBatch uniq refined → result = kept))).
Proof.
  intros Hi Hv items kept result. subst result. cbn [selectK8sLoop].
  rewrite isUniqueK8s_validBatch, decide_True by done.
  destruct (Nat.eqb_spec i 0); [done|]. fold items.
  rewrite fillMap_union. fold kept. split.
  - intros Hlen. rewrite longestCommonPrefix_short; [done|].
    subst items. by rewrite length_fmap.
  - intros Hlen. exists (longestCommonPrefix items).
    assert (isLongestCommonPrefix (longestCommonPrefix items) items) as Hlcp.
    { apply longestCommonPrefix_spec. subst items. by rewrite length_fmap. }
    split; [done|]. set (p := longestCommonPrefix items) in *.
    case_bool_decide as Hp; [left; by rewrite Hp|].
    destruct (indexOfSeparator_spec p) as [[-> Hall]|(p1 & c & p2 & Hpeq & Hc & Hp2 & ->)].
    { by left. }
    pose proof (len_nonneg p1). destruct (Z.leb_spec (len p1 + 1) 0); [lia|].
    right. exists p1, c, p2. do 3 (split; [done|]).
    set (pre := sliceTo p (len p1 + 1)).
    assert (length pre = (length p1 + 1)%nat) as Hpre.
    { subst pre. unfold sliceTo, len. rewrite length_take, Hpeq, length_app.
      cbn [length]. lia. }
    assert (removeK8sObjectsPrefix fn pre <$> objects
            = drop (length p1 + 1) <$> items) as Hnew.
    { subst items. rewrite <- list_fmap_compose. apply list_fmap_ext.
      intros j obj Hobj. cbn. unfold removeK8sObjectsPrefix.
      rewrite trimPrefix_eqvPrefix, Hpre; [done|].
      apply eqvPrefix_take, Hlcp. apply list_elem_of_fmap_2.
      by eapply list_elem_of_lookup_2. }
    rewrite isUniqueK8s_validBatch, Hnew.
    split; intros Hr.
    + rewrite decide_True by done. rewrite fillMap_union. eauto.
    + by rewrite decide_False.
Qed.

(** C5 (amended): the definition-kind strategy, when accepted, is taken
    as it is.  Any other accepted strategy is refined on a batch of two
    names or more: with the longest common prefix of its names ([-] and
    [_] taken as equal) holding a separator, every name loses the prefix
    up to and with its last separator, and the names so stripped are
    taken exactly when they are still non-empty, pairwise distinct and
    not reserved; in every other case, and always on a batch of fewer than
    two names, the names of the accepted strategy are kept. *)
Theorem refinement_of_accepted_strategy (i : nat) fn objects uniq :
  k8sObjectFuncs !! i = Some fn →
  (∀ j fj, (j < i)%nat → k8sObjectFuncs !! j = Some fj →
           ¬ validBatch uniq (fj <$> objects)) →
  validBatch uniq (fn <$> objects) →
  refinementOutcome i fn objects uniq.
Proof.
  intros Hfn Hrej Hv. unfold refinementOutcome.
  set (items := fn <$> objects).
  set (kept := (Some fn, uniq ∪ list_to_set items)).
  set (result := selectUniqueFilenameFuncForK8sObjects objects uniq).
  assert (result = selectK8sLoop i (fn :: drop (S i) k8sObjectFuncs) objects uniq)
    as Hres.
  { subst result. unfold selectUniqueFilenameFuncForK8sObjects.
    rewrite <- (take_drop_middle _ _ _ Hfn) at 1.
    rewrite selectK8sLoop_skip.
    - f_equal. rewrite length_take. apply lookup_lt_Some in Hfn. lia.
    - apply Forall_forall. intros fj Hfj.
      apply list_elem_of_lookup in Hfj as [j Hj].
      apply lookup_take_Some in Hj as [Hj Hlt]. by apply (Hrej j). }
  rewrite Hres. split_and!.
  - intros ->. cbn [selectK8sLoop]. rewrite isUniqueK8s_validBatch, decide_True by done.
    cbn. by rewrite fillMap_union.
  - intros Hi. by apply selectK8sLoop_refine.
  - intros Hi. by apply selectK8sLoop_refine.
Qed.

(** *** File groups *)

Global Instance validBatch_perm uniq : Proper ((≡ₚ) ==> iff) (validBatch uniq).
Proof. intros l1 l2 Hp. unfold validBatch. by rewrite Hp. Qed.

Lemma walkedNames_perm (t : nat) fn (objects : list filesObject) :
  walkedNames t fn objects ≡ₚ fileNames fn objects.
Proof.
  unfold fileNames. revert t.
  induction objects as [|obj objects IH]; intros t; csimpl; [done|].
  by rewrite IH, rangeOrder_perm.
Qed.

Lemma isUniqueKeysLoop_checkAll obj (entries : list (str * str)) uniq fn acc :
  isUniqueKeysLoop obj entries uniq fn acc
  = checkAll uniq ((λ e, fn obj e.1) <$> entries) acc.
Proof.
  revert acc. induction entries as [|[key data] entries IH]; intros acc; [done|].
  csimpl. by destruct (checkName uniq (fn obj key) acc).
Qed.

Lemma isUniqueFilesLoop_checkAll (objects : list filesObject) uniq fn acc w :
  ∃ w', isUniqueFilesLoop objects uniq fn acc w
        = (fst <$> checkAll uniq (walkedNames (tick w) fn objects) acc, w')
        ∧ log w' = log w.
Proof.
  revert acc w. induction objects as [|obj objects IH]; intros acc w.
  - by exists w.
  - cbn [isUniqueFilesLoop walkedNames]. unfold_St.
    rewrite isUniqueKeysLoop_checkAll, checkAll_app.
    destruct (checkAll uniq _ acc) as [acc'|]; [|by eexists].
    destruct (IH acc' (World (S (tick w)) (log w))) as (w' & -> & Hlog).
    by exists w'.
Qed.

(** A file-entry strategy is accepted on a batch of file groups exactly
    when its names meet the three acceptance conditions, in whatever
    order the maps are walked. *)
Lemma isUniqueFilenameFunc_validBatch (objects : list filesObject) uniq fn w :
  ∃ w', log w' = log w
    ∧ if decide (validBatch uniq (fileNames fn objects))
      then ∃ items, isUniqueFilenameFunc objects uniq fn w = (Some items, w')
                    ∧ items ≡ₚ fileNames fn objects
      else isUniqueFilenameFunc objects uniq fn w = (None, w').
Proof.
  unfold isUniqueFilenameFunc.
  destruct (isUniqueFilesLoop_checkAll objects uniq fn ([], ∅) w) as (w' & -> & Hlog).
  exists w'. split; [done|]. rewrite checkAll_validBatch.
  pose proof (walkedNames_perm (tick w) fn objects) as Hperm.
  case_decide as Hv; case_decide as Hv'.
  - eauto.
  - destruct Hv'. by rewrite Hperm.
  - destruct Hv. by rewrite <- Hperm.
  - done.
Qed.

Lemma selectFilesLoop_sound funcs (objects : list filesObject) uniq w r w' :
  selectFilesLoop funcs objects uniq w = (r, w') →
  log w' = log w
  ∧ ∀ f uniq', r = (Some f, uniq') →
      validBatch uniq (fileNames f objects)
      ∧ uniq' = uniq ∪ list_to_set (fileNames f objects).
Proof.
  revert w. induction funcs as [|fn funcs IH]; intros w; cbn [selectFilesLoop].
  - unfold_St. intros [= <- <-]. done.
  - unfold_St.
    destruct (isUniqueFilenameFunc_validBatch objects uniq fn w) as (w1 & Hlog1 & Hfn).
    case_decide as Hv; [|rewrite Hfn; intros [Hl Hr]%IH; split; [congruence|done]].
    destruct Hfn as (items & -> & Hperm).
    assert (∀ w2, log w2 = log w →
              (Some fn, fillMap uniq items, w2) = (r, w') →
              log w' = log w
              ∧ ∀ f uniq', r = (Some f, uniq') →
                  validBatch uniq (fileNames f objects)
                  ∧ uniq' = uniq ∪ list_to_set (fileNames f objects)) as Hkeep.
    { intros w2 Hlog2 [= <- <-]. split; [done|]. intros f uniq' [= <- <-].
      split; [done|]. rewrite fillMap_union. f_equal.
      apply set_eq. intros x. by rewrite !elem_of_list_to_set, Hperm. }
    case_bool_decide; [by apply Hkeep|].
    destruct (indexOfSeparator _ <=? 0); [by apply Hkeep|].
    set (newFunc := removeGeneratorObjectPrefix fn _).
    destruct (isUniqueFilenameFunc_validBatch objects uniq newFunc w1)
      as (w2 & Hlog2 & Hnew).
    case_decide as Hv'; [|rewrite Hnew; apply Hkeep; congruence].
    destruct Hnew as (newItems & -> & Hperm').
    intros [= <- <-]. split; [congruence|]. intros f uniq' [= <- <-].
    split; [done|]. rewrite fillMap_union. f_equal.
    apply set_eq. intros x. by rewrite !elem_of_list_to_set, Hperm'.
Qed.

Lemma initialUniq_spec k :
  initialUniq k = {[ "kustomization.yaml" : str ]} ∪ list_to_set (resources k).
Proof. unfold initialUniq. by rewrite <- fillMap_union. Qed.

(** The three batches of a directory are resolved one after the other
    against the reserved names of that directory: the manifest and its
    sub-directory references, then also the names of the batches before. *)
Lemma resolveFilenames_spec k w r w' :
  resolveFilenames k w = (r, w') →
  log w' = log w
  ∧ ∀ fk fc fs, r = Ok (fk, fc, fs) →
      let nk := fk <$> k8sObjects k in
      let nc := fileNames fc (configMapObjects k) in
      let ns := fileNames fs (secretObjects k) in
      validBatch (initialUniq k) nk
      ∧ validBatch (initialUniq k ∪ list_to_set nk) nc
      ∧ validBatch (initialUniq k ∪ list_to_set nk ∪ list_to_set nc) ns.
Proof.
  unfold resolveFilenames.
  destruct (selectUniqueFilenameFuncForK8sObjects _ _) as [[fk|] uniq1] eqn:Hk;
    [|unfold_St; by intros [= <- <-]].
  apply selectK8sLoop_sound in Hk as [Hvk ->]. unfold_St.
  destruct (selectUniqueFilenameFuncForFiles (configMapObjects k) _ w)
    as [[fc' uniq2] w1] eqn:Hc.
  apply selectFilesLoop_sound in Hc as [Hlog1 Hc].
  destruct fc' as [fc|]; [|intros [= <- <-]; done].
  destruct (Hc fc uniq2 eq_refl) as [Hvc ->].
  destruct (selectUniqueFilenameFuncForFiles (secretObjects k) _ w1)
    as [[fs' uniq3] w2] eqn:Hs.
  apply selectFilesLoop_sound in Hs as [Hlog2 Hs].
  destruct fs' as [fs|]; intros [= <- <-]; (split; [congruence|]); [|done].
  destruct (Hs fs uniq3 eq_refl) as [Hvs ->].
  by intros ??? [= <- <- <-].
Qed.

Lemma selectK8s_grows objects uniq :
  uniq ⊆ (selectUniqueFilenameFuncForK8sObjects objects uniq).2.
Proof.
  destruct (selectUniqueFilenameFuncForK8sObjects objects uniq) as [[f|] uniq'] eqn:Hs.
  - apply selectK8sLoop_sound in Hs as [_ ->]. set_solver.
  - by apply selectK8sLoop_None in Hs as [-> _].
Qed.

Lemma selectFilesLoop_grows funcs (objects : list filesObject) uniq w :
  uniq ⊆ (selectFilesLoop funcs objects uniq w).1.2.
Proof.
  revert w. induction funcs as [|fn funcs IH]; intros w; [done|].
  destruct (selectFilesLoop (fn :: funcs) objects uniq w) as [[[f|] uniq'] w'] eqn:Hs.
  - apply selectFilesLoop_sound in Hs as [_ Hs].
    destruct (Hs f uniq' eq_refl) as [_ ->]. set_solver.
  - revert Hs. cbn [selectFilesLoop]. unfold_St.
    destruct (isUniqueFilenameFunc objects uniq fn w) as [[items|] w1].
    + case_bool_decide; [done|]. destruct (_ <=? 0); [done|].
      by destruct (isUniqueFilenameFunc _ _ _ w1) as [[?|] ?].
    + intros Hs. specialize (IH w1). by rewrite Hs in IH.
Qed.

(** C1 (amended): the reserved names belong to one directory.  The
    resolution of a directory starts from the manifest name and the
    sub-directory references of that directory; its generic resources are
    resolved against these, its ConfigMap entries against these and the
    names of the generic resources, its Secret entries against all of
    them; a selection never takes a name out of the set it is given. *)
Theorem reserved_names_per_directory k w fk fc fs w' :
  resolveFilenames k w = (Ok (fk, fc, fs), w') →
  let nk := fk <$> k8sObjects k in
  let nc := fileNames fc (configMapObjects k) in
  let ns := fileNames fs (secretObjects k) in
  initialUniq k = {[ "kustomization.yaml" : str ]} ∪ list_to_set (resources k)
  ∧ validBatch (initialUniq k) nk
  ∧ validBatch (initialUniq k ∪ list_to_set nk) nc
  ∧ validBatch (initialUniq k ∪ list_to_set nk ∪ list_to_set nc) ns
  ∧ (∀ objects uniq,
       uniq ⊆ (selectUniqueFilenameFuncForK8sObjects objects uniq).2)
  ∧ (∀ objects uniq w0,
       uniq ⊆ (selectUniqueFilenameFuncForFiles objects uniq w0).1.2).
Proof.
  intros Hr nk nc ns. apply resolveFilenames_spec in Hr as [_ Hr].
  destruct (Hr fk fc fs eq_refl) as (Hk & Hc & Hs).
  split_and!; try done.
  - apply initialUniq_spec.
  - apply selectK8s_grows.
  - intros. apply selectFilesLoop_grows.
Qed.

End NamingFacts.

(** ** The emitter *)

Section EmitFacts.
Context `{GoLib, GoRuntime}.
Variable snk : sink.
Variable dir : str.

Lemma sent_nil {A} (a : A) : sent (Ok a) [] [].
Proof. by split. Qed.

Lemma sent_failed {A} (e : error) (c : write) (full : list write) :
  sent (A := A) (Err e) [c] (c :: full).
Proof. split; [|done]. by apply prefix_cons, prefix_nil. Qed.

Lemma sent_cons {A} (r : result A) (c : write) (ws full : list write) :
  sent r ws full → sent r (c :: ws) (c :: full).
Proof. intros [Hp Hok]. split; [by apply prefix_cons|]. intros a Ha. f_equal. eauto. Qed.

Lemma sent_app {A B} (r1 : result A) (r2 : result B) (a : A)
    (ws1 ws2 full1 full2 : list write) :
  r1 = Ok a → sent r1 ws1 full1 → sent r2 ws2 full2 →
  sent r2 (ws1 ++ ws2) (full1 ++ full2).
Proof.
  intros -> [_ Hok1] [Hp2 Hok2]. rewrite (Hok1 a eq_refl). split.
  - by apply prefix_app.
  - intros b Hb. f_equal. eauto.
Qed.

Lemma sent_stop {A B} (e : error) (ws full1 full2 : list write) :
  sent (A := A) (Err e) ws full1 → sent (A := B) (Err e) ws (full1 ++ full2).
Proof. intros [Hp _]. split; [by apply prefix_app_r|done]. Qed.

Lemma sent_perm {A} (r : result A) (ws full : list write) :
  sent r ws full → ∀ a, r = Ok a → ws ≡ₚ full.
Proof. intros [_ Hok] a Ha. by rewrite (Hok a Ha). Qed.

Lemma writeResourceObjects_log buf objects fk w r w' :
  writeResourceObjects buf objects fk (put snk dir) w = (r, w') →
  ∃ ws, log w' = log w ++ ws ∧ sent r ws (resourceWrites dir fk objects).
Proof.
  revert buf w. induction objects as [|obj objects IH]; intros buf w;
    cbn [writeResourceObjects]; unfold_St.
  - intros [= <- <-]. exists []. by rewrite app_nil_r.
  - destruct (snk (log w) _) as [err|].
    + intros [= <- <-]. eexists [_]. split; [done|]. apply sent_failed.
    + intros (ws & Hlog & Hs)%IH. cbn [log] in Hlog.
      exists (MkWrite dir (fk obj) (Raw obj) :: ws).
      split; [by rewrite Hlog, <- app_assoc|]. by apply sent_cons.
Qed.

Lemma writeResources_log buf resources objects fk w r w' :
  writeResources buf resources objects fk (put snk dir) w = (r, w') →
  ∃ ws, log w' = log w ++ ws ∧ sent r ws (resourceWrites dir fk objects).
Proof.
  unfold writeResources. destruct (_ || _) eqn:Hc.
  - apply writeResourceObjects_log.
  - apply orb_false_iff in Hc as [_ Ho].
    destruct objects; [|done]. unfold_St. intros [= <- <-].
    exists []. by rewrite app_nil_r.
Qed.

Lemma writeMapFields_log buf fieldName data w buf' w' :
  writeMapFields buf fieldName data w = (buf', w') → log w' = log w.
Proof.
  unfold writeMapFields. destruct (0 <? size data)%nat; unfold_St;
    by intros [= <- <-].
Qed.

Lemma writeFileEntries_log buf (entries : list (str * str)) fn obj w r w' :
  writeFileEntries buf entries fn obj (put snk dir) w = (r, w') →
  ∃ ws, log w' = log w ++ ws
        ∧ sent r ws ((λ e, MkWrite dir (fn obj e.1) e.2) <$> entries).
Proof.
  revert buf w. induction entries as [|[key data] entries IH]; intros buf w;
    cbn [writeFileEntries]; unfold_St.
  - intros [= <- <-]. exists []. by rewrite app_nil_r.
  - destruct (snk (log w) _) as [err|].
    + intros [= <- <-]. eexists [_]. split; [done|]. apply sent_failed.
    + intros (ws & Hlog & Hs)%IH. cbn [log] in Hlog.
      exists (MkWrite dir (fn obj key) data :: ws).
      split; [by rewrite Hlog, <- app_assoc|]. by apply sent_cons.
Qed.

Lemma writeGeneratorObjects_log buf generatorType (objects : list filesObject)
    fn w r w' :
  writeGeneratorObjects buf generatorType objects fn (put snk dir) w = (r, w') →
  ∃ ws full, log w' = log w ++ ws ∧ full ≡ₚ groupWrites dir fn objects
             ∧ sent r ws full.
Proof.
  unfold groupWrites.
  revert buf w. induction objects as [|obj objects IH]; intros buf w;
    cbn [writeGeneratorObjects].
  - unfold_St. intros [= <- <-]. exists [], []. by rewrite app_nil_r.
  - unfold bind at 1.
    destruct (writeMapFields _ _ _ w) as [buf1 w1] eqn:Hl1.
    apply writeMapFields_log in Hl1. unfold bind at 1.
    destruct (writeMapFields _ _ _ w1) as [buf2 w2] eqn:Hl2.
    apply writeMapFields_log in Hl2.
    unfold bind at 1. unfold writeFiles at 1. unfold bind at 1, rangeMap at 1.
    set (entries := rangeOrder (tick w2) _ (map_to_list (files obj))).
    destruct (writeFileEntries _ entries fn (fo_k8sObject obj) (put snk dir) _)
      as [r1 w3] eqn:H3.
    apply writeFileEntries_log in H3 as (ws1 & Hlog1 & Hs1). cbn [log] in Hlog1.
    set (full1 := (λ e : str * str, MkWrite dir (fn (fo_k8sObject obj) e.1) e.2)
                    <$> entries) in *.
    assert (full1 ≡ₚ (λ e, MkWrite dir (fn (fo_k8sObject obj) e.1) e.2)
                       <$> map_to_list (files obj)) as Hperm.
    { subst full1 entries. by rewrite rangeOrder_perm. }
    destruct r1 as [buf3|err].
    + intros (ws2 & full2 & Hlog2 & Hperm2 & Hs2)%IH.
      exists (ws1 ++ ws2), (full1 ++ full2). split_and!.
      * rewrite Hlog2, Hlog1, Hl2, Hl1. by rewrite <- app_assoc.
      * rewrite bind_cons. by rewrite Hperm, Hperm2.
      * by eapply sent_app.
    + unfold ret. intros [= <- <-].
      exists ws1, (full1 ++ (objects ≫= λ obj,
        (λ e, MkWrite dir (fn (fo_k8sObject obj) e.1) e.2) <$> map_to_list (files obj))).
      split_and!.
      * by rewrite Hlog1, Hl2, Hl1.
      * rewrite bind_cons. by rewrite Hperm.
      * by eapply sent_stop.
Qed.

Lemma writeGenerators_log buf generatorType (objects : list filesObject) fn w r w' :
  writeGenerators buf generatorType objects fn (put snk dir) w = (r, w') →
  ∃ ws full, log w' = log w ++ ws ∧ full ≡ₚ groupWrites dir fn objects
             ∧ sent r ws full.
Proof.
  unfold writeGenerators. destruct (0 <? length objects)%nat eqn:Hc.
  - apply writeGeneratorObjects_log.
  - destruct objects; [|done]. unfold_St. intros [= <- <-].
    exists [], []. by rewrite app_nil_r.
Qed.

Lemma emit_log k fk fc fs w err w' :
  emit k fk fc fs (put snk dir) w = (err, w') →
  ∃ ws body, log w' = log w ++ ws ∧ body ≡ₚ bodyWrites dir k fk fc fs
    ∧ (ws `prefix_of` body
       ∨ ∃ buf, ws = body ++ [MkWrite dir "kustomization.yaml" buf]).
Proof.
  unfold emit, bodyWrites. unfold bind at 1.
  destruct (writeResources _ _ _ _ _ w) as [r1 w1] eqn:H1.
  apply writeResources_log in H1 as (ws1 & Hlog1 & Hs1).
  destruct r1 as [buf1|e1].
  2:{ unfold ret. intros [= <- <-]. eexists ws1, _. split_and!; [done..|].
      left. destruct Hs1 as [Hp _]. by apply prefix_app_r. }
  destruct Hs1 as [_ Hok1]. specialize (Hok1 buf1 eq_refl). subst ws1.
  unfold bind at 1.
  destruct (writeGenerators _ _ (configMapObjects k) _ _ w1) as [r2 w2] eqn:H2.
  apply writeGenerators_log in H2 as (ws2 & full2 & Hlog2 & Hperm2 & Hs2).
  destruct r2 as [buf2|e2].
  2:{ unfold ret. intros [= <- <-].
      exists (resourceWrites dir fk (k8sObjects k) ++ ws2),
             (resourceWrites dir fk (k8sObjects k) ++ full2
              ++ groupWrites dir fs (secretObjects k)).
      split_and!.
      - by rewrite Hlog2, Hlog1, <- app_assoc.
      - by rewrite Hperm2.
      - left. apply prefix_app. destruct Hs2 as [Hp _]. by apply prefix_app_r. }
  destruct Hs2 as [_ Hok2]. specialize (Hok2 buf2 eq_refl). subst ws2.
  unfold bind at 1.
  destruct (writeGenerators _ _ (secretObjects k) _ _ w2) as [r3 w3] eqn:H3.
  apply writeGenerators_log in H3 as (ws3 & full3 & Hlog3 & Hperm3 & Hs3).
  destruct r3 as [buf3|e3].
  2:{ unfold ret. intros [= <- <-].
      exists (resourceWrites dir fk (k8sObjects k) ++ full2 ++ ws3),
             (resourceWrites dir fk (k8sObjects k) ++ full2 ++ full3).
      split_and!.
      - by rewrite Hlog3, Hlog2, Hlog1, <- !app_assoc.
      - by rewrite Hperm2, Hperm3.
      - left. do 2 apply prefix_app. by destruct Hs3 as [Hp _]. }
  destruct Hs3 as [_ Hok3]. specialize (Hok3 buf3 eq_refl). subst ws3.
  unfold put. intros [= <- <-]. cbn [log].
  exists ((resourceWrites dir fk (k8sObjects k) ++ full2 ++ full3)
          ++ [MkWrite dir "kustomization.yaml" buf3]),
         (resourceWrites dir fk (k8sObjects k) ++ full2 ++ full3).
  split_and!.
  - by rewrite Hlog3, Hlog2, Hlog1, <- !app_assoc.
  - by rewrite Hperm2, Hperm3.
  - right. eauto.
Qed.

Lemma kustomizationBuilder_Build_log k w err w' :
  kustomizationBuilder_Build k (put snk dir) w = (err, w') →
  ∃ ws, log w' = log w ++ ws ∧ (ws = [] ∨ dirWrites dir k ws).
Proof.
  unfold kustomizationBuilder_Build. unfold bind at 1.
  destruct (resolveFilenames k w) as [r w1] eqn:Hr.
  pose proof (resolveFilenames_spec _ _ _ _ Hr) as [Hlog _].
  destruct r as [[[fk fc] fs]|e].
  - intros (ws & body & Hlog' & Hperm & Hws)%emit_log.
    exists ws. split; [congruence|]. right.
    by exists fk, fc, fs, w, w1, body.
  - unfold ret. intros [= <- <-]. exists []. rewrite app_nil_r. by split; [|left].
Qed.

End EmitFacts.

Section BuildFacts.
Context `{GoLib, GoRuntime}.

Lemma resourceWrites_names dir fk objects :
  w_name <$> resourceWrites dir fk objects = fk <$> objects.
Proof. unfold resourceWrites. by rewrite <- list_fmap_compose. Qed.

Lemma groupWrites_names dir fn (objects : list filesObject) :
  w_name <$> groupWrites dir fn objects = fileNames fn objects.
Proof.
  unfold groupWrites, fileNames.
  induction objects as [|obj objects IH]; [done|].
  rewrite !bind_cons, fmap_app, IH. f_equal.
  by rewrite <- list_fmap_compose.
Qed.

Lemma bodyWrites_names dir k fk fc fs :
  w_name <$> bodyWrites dir k fk fc fs
  = (fk <$> k8sObjects k) ++ fileNames fc (configMapObjects k)
    ++ fileNames fs (secretObjects k).
Proof.
  unfold bodyWrites.
  by rewrite !fmap_app, resourceWrites_names, !groupWrites_names.
Qed.

Lemma bodyWrites_dir dir k fk fc fs c :
  c ∈ bodyWrites dir k fk fc fs → w_dir c = dir.
Proof.
  unfold bodyWrites, resourceWrites, groupWrites.
  rewrite !elem_of_app, !list_elem_of_bind, list_elem_of_fmap.
  intros [(obj & -> & _)|[(fg & Hc & _)|(fg & Hc & _)]]; [done|..];
    by apply list_elem_of_fmap in Hc as (e & -> & _).
Qed.

(** The names a directory resolves are pairwise distinct, and none is the
    name of the manifest. *)
Lemma resolved_names_NoDup k w fk fc fs w' :
  resolveFilenames k w = (Ok (fk, fc, fs), w') →
  NoDup (((fk <$> k8sObjects k) ++ fileNames fc (configMapObjects k)
          ++ fileNames fs (secretObjects k)) ++ ["kustomization.yaml" : str]).
Proof.
  intros Hr. apply resolveFilenames_spec in Hr as [_ Hr].
  destruct (Hr fk fc fs eq_refl) as ((_ & Hdk & Huk) & (_ & Hdc & Huc) & (_ & Hds & Hus)).
  rewrite initialUniq_spec in *.
  rewrite Forall_forall in Huk, Huc, Hus.
  apply NoDup_app. split_and!;
    [|intros x Hx Hm%list_elem_of_singleton; subst x|apply NoDup_singleton].
  - apply NoDup_app. split_and!; [done| |].
    + intros x Hx [Hc|Hs]%elem_of_app.
      * apply (Huc x Hc). set_solver.
      * apply (Hus x Hs). set_solver.
    + apply NoDup_app. split_and!; [done| |done].
      intros x Hx Hs. apply (Hus x Hs). set_solver.
  - apply elem_of_app in Hx as [Hk|[Hc|Hs]%elem_of_app].
    + apply (Huk _ Hk). set_solver.
    + apply (Huc _ Hc). set_solver.
    + apply (Hus _ Hs). set_solver.
Qed.

Lemma dirWrites_dir dir k ws c : dirWrites dir k ws → c ∈ ws → w_dir c = dir.
Proof.
  intros (fk & fc & fs & w0 & w1 & body & _ & Hperm & Hws) Hc.
  assert (∀ c, c ∈ body → w_dir c = dir) as Hbody.
  { intros c' Hc'. rewrite Hperm in Hc'. by eapply bodyWrites_dir. }
  destruct Hws as [Hp|[buf ->]].
  - apply Hbody. destruct Hp as [rest ->]. apply elem_of_app. by left.
  - apply elem_of_app in Hc as [Hc|Hc%list_elem_of_singleton];
      [by apply Hbody|by subst].
Qed.

Lemma dirWrites_names_NoDup dir k ws : dirWrites dir k ws → NoDup (w_name <$> ws).
Proof.
  intros (fk & fc & fs & w0 & w1 & body & Hr & Hperm & Hws).
  pose proof (resolved_names_NoDup _ _ _ _ _ _ Hr) as Hnd.
  rewrite <- (bodyWrites_names dir), <- Hperm in Hnd.
  destruct Hws as [[rest ->]|[buf ->]].
  - apply NoDup_app in Hnd as [Hnd _]. rewrite fmap_app in Hnd.
    by apply NoDup_app in Hnd as [Hnd _].
  - by rewrite fmap_app.
Qed.


Lemma buildDirs_log b ds snk w err w' :
  buildDirs b ds snk w = (err, w') →
  ∃ wss, Forall2 (dirStep b) ds wss ∧ log w' = log w ++ concat wss.
Proof.
  revert w. induction ds as [|d ds IH]; intros w; cbn [buildDirs].
  - unfold ret. intros [= <- <-]. exists []. by rewrite app_nil_r.
  - destruct (dirs b !! d) as [k|] eqn:Hd.
    + unfold bind at 1.
      destruct (kustomizationBuilder_Build k (put snk d) w) as [e1 w1] eqn:Hb.
      apply kustomizationBuilder_Build_log in Hb as (ws & Hlog & Hws).
      assert (dirStep b d ws) as Hstep.
      { destruct Hws as [->|Hws]; [by left|right; eauto]. }
      destruct e1 as [e1|].
      * unfold ret. intros [= <- <-]. exists (ws :: ((λ _, []) <$> ds)). split.
        -- constructor; [done|]. apply Forall2_fmap_r, Forall_Forall2_diag.
           apply Forall_forall. intros ??. by left.
        -- cbn [concat]. rewrite Hlog. f_equal.
           assert (concat ((λ _ : str, @nil write) <$> ds) = []) as ->
             by (clear; induction ds; [done|by csimpl]).
           by rewrite app_nil_r.
      * intros (wss & Hall & Hlog')%IH. exists (ws :: wss). split.
        -- by constructor.
        -- cbn [concat]. by rewrite Hlog', Hlog, <- app_assoc.
    + intros (wss & Hall & Hlog')%IH. exists ([] :: wss). split.
      * constructor; [by left|done].
      * done.
Qed.

Lemma sortedDirs_NoDup (b : Builder) (t : nat) :
  NoDup (sortStrings (rangeOrder t _ (map_to_list (dirs b))).*1).
Proof.
  unfold sortStrings. rewrite merge_sort_Permutation, rangeOrder_perm.
  apply NoDup_fst_map_to_list.
Qed.

Lemma Builder_Build_log b snk w err w' :
  Builder_Build b snk w = (err, w') →
  ∃ ds wss, NoDup ds ∧ Forall2 (dirStep b) ds wss ∧ log w' = log w ++ concat wss.
Proof.
  unfold Builder_Build. unfold bind, rangeMap.
  intros (wss & Hall & Hlog)%buildDirs_log. cbn [log] in Hlog.
  eexists _, wss. split_and!; [apply sortedDirs_NoDup|done..].
Qed.

Lemma dirStep_dir b d ws c : dirStep b d ws → c ∈ ws → w_dir c = d.
Proof.
  intros [->|(k & _ & Hws)] Hc; [by apply elem_of_nil in Hc|].
  by eapply dirWrites_dir.
Qed.

Lemma dirStep_targets_NoDup b d ws : dirStep b d ws → NoDup (target <$> ws).
Proof.
  intros [->|(k & _ & Hws)]; [constructor|].
  apply (NoDup_fmap_1 snd). rewrite <- list_fmap_compose.
  by eapply dirWrites_names_NoDup.
Qed.

Lemma steps_dirs b ds wss c :
  Forall2 (dirStep b) ds wss → c ∈ concat wss → w_dir c ∈ ds.
Proof.
  induction 1 as [|d ws ds wss Hstep Hall IH]; cbn [concat].
  - by intros ?%elem_of_nil.
  - intros [Hc|Hc]%elem_of_app.
    + rewrite (dirStep_dir _ _ _ _ Hstep Hc). by left.
    + right. by apply IH.
Qed.

Lemma steps_targets_NoDup b ds wss :
  NoDup ds → Forall2 (dirStep b) ds wss → NoDup (target <$> concat wss).
Proof.
  intros Hnd Hall. induction Hall as [|d ws ds wss Hstep Hall IH]; cbn [concat].
  - constructor.
  - apply NoDup_cons in Hnd as [Hd Hnd]. rewrite fmap_app.
    apply NoDup_app. split_and!; [by eapply dirStep_targets_NoDup| |by apply IH].
    intros x (c & -> & Hc)%list_elem_of_fmap (c' & Heq & Hc')%list_elem_of_fmap.
    apply Hd. injection Heq as Hdir _.
    rewrite <- (dirStep_dir _ _ _ _ Hstep Hc), Hdir. by eapply steps_dirs.
Qed.

(** C6: over a whole run the sink is never called twice for the same
    directory and filename, so the names written to one directory
    (resource files, generator entry files and the manifest) are pairwise
    distinct; this holds for every sink, whatever it answers. *)
Theorem sink_targets_distinct b snk (t : nat) :
  let writes := log (Builder_Build b snk (World t [])).2 in
  NoDup (target <$> writes)
  ∧ ∀ d, NoDup (w_name <$> filter (λ c, w_dir c = d) writes).
Proof.
  intros writes.
  assert (NoDup (target <$> writes)) as Hnd.
  { subst writes. destruct (Builder_Build b snk (World t [])) as [err w'] eqn:Hb.
    apply Builder_Build_log in Hb as (ds & wss & Hds & Hall & Hlog).
    cbn [snd log app] in *. rewrite Hlog. by eapply steps_targets_NoDup. }
  split; [done|]. intros d. clear -Hnd.
  induction writes as [|c writes IH]; [constructor|].
  csimpl in Hnd. apply NoDup_cons in Hnd as [Hc Hnd].
  rewrite filter_cons. case_decide as Hd; [|by apply IH].
  csimpl. apply NoDup_cons. split; [|by apply IH].
  intros (c' & Hn & [Hd' Hc']%list_elem_of_filter)%list_elem_of_fmap.
  apply Hc. apply list_elem_of_fmap. exists c'. split; [|done].
  unfold target. by rewrite Hn, Hd, Hd'.
Qed.








End BuildFacts.

(** ** The program on examples *)

Section Examples.
#[local] Existing Instance forwardRuntime.
#[local] Existing Instance exLib.

(** C1 on the directory [x] holding one Deployment. *)
Lemma reserved_names_per_directory_witness :
  initialUniq dirX = {[ "kustomization.yaml" : str ]} ∪ list_to_set (resources dirX)
  ∧ validBatch (initialUniq dirX)
      (getK8sObjectShortFilenameByKind <$> k8sObjects dirX).
Proof.
  assert (resolveFilenames dirX world0
          = (Ok (getK8sObjectShortFilenameByKind,
                 getGeneratorObjectShortFilenameByKey,
                 getGeneratorObjectShortFilenameByKey), world0)) as Hr
    by (vm_compute; reflexivity).
  destruct (reserved_names_per_directory _ _ _ _ _ _ Hr) as (H1 & H2 & _).
  by split.
Defined.

(** C1 (as stated) fails: the name reserved while the directory [x] was
    resolved is given again in the directory [y], resolved after it. *)
Lemma reserved_names_not_shared_counterexample :
  ("deployment.yaml" : str)
    ∈ (selectUniqueFilenameFuncForK8sObjects [webX] (initialUniq dirX)).2
  ∧ target <$> log (Builder_Build (addAll [webX; webY] NewBuilder) okSink world0).2
    = [ ([] : str, "kustomization.yaml" : str);
        ("x" : str, "deployment.yaml" : str);
        ("x" : str, "kustomization.yaml" : str);
        ("y" : str, "deployment.yaml" : str);
        ("y" : str, "kustomization.yaml" : str) ].
Proof.
  split; [apply (bool_decide_unpack _); by vm_compute|].
  vm_compute. reflexivity.
Qed.

(** C2: the same input under two orders of the map walks gives two
    manifests, and the sink is called in two orders. *)
Lemma manifest_depends_on_map_walk :
  w_name <$> runCfg forwardRuntime
  = ["b" : str; "a" : str; "kustomization.yaml" : str]
  ∧ w_name <$> runCfg backwardRuntime
    = ["a" : str; "b" : str; "kustomization.yaml" : str]
  ∧ last (w_data <$> runCfg forwardRuntime)
    ≠ last (w_data <$> runCfg backwardRuntime).
Proof.
  split_and!; [by vm_compute..|].
  apply (bool_decide_unpack _). by vm_compute.
Qed.

(** C3 on two Deployments of different names. *)
Lemma full_strategy_fallback_witness :
  Forall (λ n, n ≠ []) (getK8sObjectFilenameFull <$> [svcA; svcB])
  ∧ ∃ f uniq',
      selectUniqueFilenameFuncForK8sObjects [svcA; svcB]
        {[ "kustomization.yaml" : str ]} = (Some f, uniq')
      ∧ validBatch {[ "kustomization.yaml" : str ]} (f <$> [svcA; svcB]).
Proof.
  apply full_strategy_fallback; apply (bool_decide_unpack _); by vm_compute.
Defined.

(** C3 (as stated) fails: two Deployments of one name in two namespaces
    get one and the same name from the fifth strategy, no strategy is
    accepted, and the run ends with the naming error. *)
Lemma full_strategy_collides_counterexample :
  getK8sObjectFilenameFull <$> [webA; webB]
  = ["web_apps_deployment.yaml" : str; "web_apps_deployment.yaml" : str]
  ∧ (selectUniqueFilenameFuncForK8sObjects [webA; webB]
       {[ "kustomization.yaml" : str ]}).1 = None
  ∧ (Builder_Build (addAll [webA; webB] NewBuilder) okSink world0).1
    = Some (Errorf "no unique filename for k8s objects").
Proof. split_and!; by vm_compute. Qed.

(** C5 on two Deployments whose names share the prefix [svc-]: the third
    strategy is the first accepted one. *)
Lemma refinement_of_accepted_strategy_witness :
  refinementOutcome 2 getK8sObjectShortFilenameByName [svcA; svcB]
    {[ "kustomization.yaml" : str ]}.
Proof.
  apply refinement_of_accepted_strategy.
  - reflexivity.
  - intros j fj Hj Hfj. destruct j as [|[|j]]; [| |lia];
      injection Hfj as <-; apply (bool_decide_unpack _); by vm_compute.
  - apply (bool_decide_unpack _). by vm_compute.
Defined.

(** C5 (as stated) fails on a batch of one name: the third strategy is
    the first accepted one, the longest common prefix of its one name is
    the name itself, it holds a separator, and the name stripped up to
    that separator is still valid; but the name is kept as it is. *)
Lemma single_name_not_refined_counterexample :
  let uniq : gset str := {[ "kustomization.yaml" : str ]} in
  let items := getK8sObjectShortFilenameByName <$> [flux] in
  k8sObjectFuncs !! 2%nat = Some getK8sObjectShortFilenameByName
  ∧ ¬ validBatch uniq (getCRDFilename <$> [flux])
  ∧ ¬ validBatch uniq (getK8sObjectShortFilenameByKind <$> [flux])
  ∧ validBatch uniq items
  ∧ items = ["flux-system.yaml" : str]
  ∧ isLongestCommonPrefix ("flux" ++ "-"%char :: "system.yaml") items
  ∧ validBatch uniq (drop 5 <$> items)
  ∧ (selectUniqueFilenameFuncForK8sObjects [flux] uniq).1
    = Some getK8sObjectShortFilenameByName.
Proof.
  intros uniq items.
  split_and!; try (apply (bool_decide_unpack _); by vm_compute);
    try (by vm_compute).
  assert (items = ["flux-system.yaml" : str]) as -> by (by vm_compute).
  split.
  - intros s ->%list_elem_of_singleton. split; [done|].
    intros j _. apply charEqual_refl.
  - intros q Hq. destruct (Hq "flux-system.yaml") as [Hl _]; [by left|done].
Qed.


(** C9 on a stream of one document that does not decode. *)
Lemma Process_document_outcomes_witness :
  Process "x: [" NewBuilder world0
  = ((Some (YAMLError "yaml: unmarshal errors"), NewBuilder), world0).
Proof.
  destruct (Process_document_outcomes "x: [" [] "x: [" [] NewBuilder world0
              NewBuilder world0) as (Herr & _ & _); [by vm_compute..|].
  apply Herr; by vm_compute.
Defined.


End Examples.
